(** * GameEngine: the main loop, event dispatch, timers and collision pass

    A shallow embedding of [GameEngine/Engine.cpp] and [GameEngine/Level.cpp].

    The engine is single threaded; its state is threaded explicitly.  Calls
    that leave the engine (the window, the platform event system, sprites and
    the listeners of the application) are recorded in a log, so that "what
    was invoked, and in which order" can be stated.  Behaviour that C++
    leaves undefined (a dangling sprite pointer, an invalidated vector
    iterator, a division by zero, ...) is an explicit fault. *)

From Stdlib Require Import ZArith Lia Floats Uint63.
From stdpp Require Import base option list sorting gmap.

Open Scope Z_scope.

(** ** Machine integers *)

Definition INT_MIN : Z := - 2 ^ 31.
Definition INT_MAX : Z := 2 ^ 31 - 1.

(** Conversion to [Uint32]. *)
Definition to_Uint32 (z : Z) : Z := z mod 2 ^ 32.

(** A 32-bit pattern read through an [int*]. *)
Definition to_int (z : Z) : Z :=
  let u := z mod 2 ^ 32 in if u <? 2 ^ 31 then u else u - 2 ^ 32.

(** ** The arithmetic of [HandleTime]

    [(int)(round(((fps / 1000.0) * entry.first)))] is computed on binary64
    doubles; the kernel's primitive floats are binary64 with round to nearest
    even, as the C++ operators are. *)

(** [int] to [double]: exact for every 32-bit value. *)
Definition int_to_double (z : Z) : float :=
  if z <? 0 then PrimFloat.opp (PrimFloat.of_uint63 (Uint63.of_Z (- z)))
  else PrimFloat.of_uint63 (Uint63.of_Z z).

(** C's [round]: to the nearest integer, halfway cases away from zero.  The
    result is an integer, given here as a [Z]; [None] for an infinity or a
    NaN, which no integer represents. *)
Definition c_round (x : float) : option Z :=
  match Prim2SF x with
  | S754_zero _ => Some 0
  | S754_finite s m e =>
      let mag := match e with
                 | Z0 => Zpos m
                 | Zpos p => Zpos m * 2 ^ Zpos p
                 | Zneg p => (2 * Zpos m + 2 ^ Zpos p) / (2 * 2 ^ Zpos p)
                 end in
      Some (if s then - mag else mag)
  | _ => None
  end.

(** The cast [(int)]: defined only when the value fits an [int]. *)
Definition double_to_int (r : option Z) : option Z :=
  match r with
  | Some z => if (INT_MIN <=? z) && (z <=? INT_MAX) then Some z else None
  | None => None
  end.

(** [rhs] of [HandleTime] before the cast: the number of frames per period. *)
Definition frames_per_period (fps delay : Z) : option Z :=
  c_round (PrimFloat.mul (PrimFloat.div (int_to_double fps) (int_to_double 1000))
                         (int_to_double delay)).

Definition time_rhs (fps delay : Z) : option Z :=
  double_to_int (frames_per_period fps delay).

(** ** Data *)

(** Objects are known by their addresses. *)
Definition Sprite := nat.
Definition LevelPtr := nat.

(** [event_listener] and [collision_listener] are pointers to functions of
    the application; [nullptr] is address 0. *)
Definition FnPtr := nat.
Definition nullptr : FnPtr := 0%nat.

(** [SDL_Rect], the boundary of a sprite. *)
Record Rect := mkRect { rect_x : Z; rect_y : Z; rect_w : Z; rect_h : Z }.

(** What [user.data1] and [user.data2] of an event may point to: the [fps]
    or [frame_counter] field of the engine (as [EmitTimeEvent] sets them), an
    [int] elsewhere, or nothing. *)
Inductive IntPtr :=
| AddrFps
| AddrFrameCounter
| AddrInt (v : Z)
| AddrNull.

(** The fields of [SDL_Event] the engine reads. *)
Record SDL_Event := mkEvent {
  ev_type : Z;        (* Uint32 type *)
  ev_sym : Z;         (* key.keysym.sym *)
  ev_data1 : IntPtr;  (* user.data1 *)
  ev_data2 : IntPtr   (* user.data2 *)
}.

(** Event types and bounds of SDL2's [SDL_events.h]. *)
Definition SDL_QUIT : Z := 256.
Definition SDL_KEYDOWN : Z := 768.
Definition SDL_MOUSEMOTION : Z := 1024.
Definition SDL_MOUSEBUTTONDOWN : Z := 1025.
Definition SDL_MOUSEBUTTONUP : Z := 1026.
Definition SDL_MOUSEWHEEL : Z := 1027.
Definition SDL_USEREVENT : Z := 32768.
Definition SDL_LASTEVENT : Z := 65535.

(** [(Uint32)-1], what [SDL_RegisterEvents] answers when no user event type
    is left. *)
Definition NO_EVENT_TYPE : Z := 2 ^ 32 - 1.

(** The statements of the body of [Engine::Run]'s loop. *)
Inductive RunStep :=
| SGetTimestamp (t : Z)
| SPollEvent
| SDrawSprites (time_elapsed : Z)
| SIncrementFrameCounter
| SDetectCollision
| SEmitTimeEvent
| SDelay (ms : Z)
| SSetTimeElapsed (start_time stop_time : Z).

(** What the engine does that can be seen from outside it. *)
Inductive Obs :=
| OStep (s : RunStep)                           (* a statement of the main loop *)
| ORegisterEvents (answer : Z)                  (* SDL_RegisterEvents(1) *)
| OPushEvent (ev : SDL_Event)                   (* SDL_PushEvent *)
| OEventListener (key : Z) (l : FnPtr)          (* entry.second() in HandleEvent *)
| OTimeListener (delay : Z) (l : FnPtr)         (* entry.second() in HandleTime *)
| OCollision (l : FnPtr) (a b : Sprite)         (* current_collision_listener(a, b) *)
| OSpriteEvent (s : Sprite) (ev : SDL_Event)    (* sprite->DelegateEvent(event) *)
| OQuit                                         (* Engine::Quit *)
| OLoadLevel (p : LevelPtr)                     (* window->LoadLevel(level) *)
| OLoadSprite (s : Sprite).                     (* window->LoadSprite(sprite) *)

#[global] Instance Rect_eq_dec : EqDecision Rect.
Proof. solve_decision. Defined.
#[global] Instance IntPtr_eq_dec : EqDecision IntPtr.
Proof. solve_decision. Defined.
#[global] Instance SDL_Event_eq_dec : EqDecision SDL_Event.
Proof. solve_decision. Defined.
#[global] Instance RunStep_eq_dec : EqDecision RunStep.
Proof. solve_decision. Defined.
#[global] Instance Obs_eq_dec : EqDecision Obs.
Proof. solve_decision. Defined.

(** A [Level]: the vector [sprites], the flag [is_loaded], and whether
    [window] was set.  [sprites_version] is not in the source: it counts the
    structural changes of the vector ([push_back], [erase]), each of which
    invalidates the iterators of a traversal in progress. *)
Record Level := mkLevel {
  sprites : list Sprite;
  is_loaded : bool;
  has_window : bool;
  sprites_version : nat
}.

(** The engine, the objects it points to, and the platform. *)
Record Engine := mkEngine {
  fps : Z;
  frame_counter : Z;
  is_running : bool;
  time_elapsed : Z;
  time_event_type : Z;                       (* static Uint32 Engine::time_event_type *)
  levels : list LevelPtr;
  current_level : option LevelPtr;           (* None: not a pointer to a Level *)
  current_collision_listener : FnPtr;
  time_listeners : gmap Z FnPtr;             (* std::map<int, event_listener> *)
  event_listeners : gmap Z FnPtr;
  level_heap : gmap LevelPtr Level;          (* the Level objects that exist *)
  sprite_heap : gmap Sprite Rect;            (* the Sprite objects that exist *)
  sdl_queue : list SDL_Event;                (* SDL's event queue *)
  sdl_userevents : Z;                        (* SDL's next free user event type *)
  log : list Obs
}.

(** Field updates. *)
Definition set_frame_counter (v : Z) (e : Engine) : Engine :=
  mkEngine (fps e) v (is_running e) (time_elapsed e) (time_event_type e) (levels e)
    (current_level e) (current_collision_listener e) (time_listeners e) (event_listeners e)
    (level_heap e) (sprite_heap e) (sdl_queue e) (sdl_userevents e) (log e).
Definition set_is_running (v : bool) (e : Engine) : Engine :=
  mkEngine (fps e) (frame_counter e) v (time_elapsed e) (time_event_type e) (levels e)
    (current_level e) (current_collision_listener e) (time_listeners e) (event_listeners e)
    (level_heap e) (sprite_heap e) (sdl_queue e) (sdl_userevents e) (log e).
Definition set_time_elapsed (v : Z) (e : Engine) : Engine :=
  mkEngine (fps e) (frame_counter e) (is_running e) v (time_event_type e) (levels e)
    (current_level e) (current_collision_listener e) (time_listeners e) (event_listeners e)
    (level_heap e) (sprite_heap e) (sdl_queue e) (sdl_userevents e) (log e).
Definition set_time_event_type (v : Z) (e : Engine) : Engine :=
  mkEngine (fps e) (frame_counter e) (is_running e) (time_elapsed e) v (levels e)
    (current_level e) (current_collision_listener e) (time_listeners e) (event_listeners e)
    (level_heap e) (sprite_heap e) (sdl_queue e) (sdl_userevents e) (log e).
Definition set_levels (v : list LevelPtr) (e : Engine) : Engine :=
  mkEngine (fps e) (frame_counter e) (is_running e) (time_elapsed e) (time_event_type e) v
    (current_level e) (current_collision_listener e) (time_listeners e) (event_listeners e)
    (level_heap e) (sprite_heap e) (sdl_queue e) (sdl_userevents e) (log e).
Definition set_current_level (v : option LevelPtr) (e : Engine) : Engine :=
  mkEngine (fps e) (frame_counter e) (is_running e) (time_elapsed e) (time_event_type e) (levels e)
    v (current_collision_listener e) (time_listeners e) (event_listeners e)
    (level_heap e) (sprite_heap e) (sdl_queue e) (sdl_userevents e) (log e).
Definition set_current_collision_listener (v : FnPtr) (e : Engine) : Engine :=
  mkEngine (fps e) (frame_counter e) (is_running e) (time_elapsed e) (time_event_type e) (levels e)
    (current_level e) v (time_listeners e) (event_listeners e)
    (level_heap e) (sprite_heap e) (sdl_queue e) (sdl_userevents e) (log e).
Definition set_time_listeners (v : gmap Z FnPtr) (e : Engine) : Engine :=
  mkEngine (fps e) (frame_counter e) (is_running e) (time_elapsed e) (time_event_type e) (levels e)
    (current_level e) (current_collision_listener e) v (event_listeners e)
    (level_heap e) (sprite_heap e) (sdl_queue e) (sdl_userevents e) (log e).
Definition set_event_listeners (v : gmap Z FnPtr) (e : Engine) : Engine :=
  mkEngine (fps e) (frame_counter e) (is_running e) (time_elapsed e) (time_event_type e) (levels e)
    (current_level e) (current_collision_listener e) (time_listeners e) v
    (level_heap e) (sprite_heap e) (sdl_queue e) (sdl_userevents e) (log e).
Definition set_level_heap (v : gmap LevelPtr Level) (e : Engine) : Engine :=
  mkEngine (fps e) (frame_counter e) (is_running e) (time_elapsed e) (time_event_type e) (levels e)
    (current_level e) (current_collision_listener e) (time_listeners e) (event_listeners e)
    v (sprite_heap e) (sdl_queue e) (sdl_userevents e) (log e).
Definition set_sprite_heap (v : gmap Sprite Rect) (e : Engine) : Engine :=
  mkEngine (fps e) (frame_counter e) (is_running e) (time_elapsed e) (time_event_type e) (levels e)
    (current_level e) (current_collision_listener e) (time_listeners e) (event_listeners e)
    (level_heap e) v (sdl_queue e) (sdl_userevents e) (log e).
Definition set_sdl_queue (v : list SDL_Event) (e : Engine) : Engine :=
  mkEngine (fps e) (frame_counter e) (is_running e) (time_elapsed e) (time_event_type e) (levels e)
    (current_level e) (current_collision_listener e) (time_listeners e) (event_listeners e)
    (level_heap e) (sprite_heap e) v (sdl_userevents e) (log e).
Definition set_sdl_userevents (v : Z) (e : Engine) : Engine :=
  mkEngine (fps e) (frame_counter e) (is_running e) (time_elapsed e) (time_event_type e) (levels e)
    (current_level e) (current_collision_listener e) (time_listeners e) (event_listeners e)
    (level_heap e) (sprite_heap e) (sdl_queue e) v (log e).
Definition set_log (v : list Obs) (e : Engine) : Engine :=
  mkEngine (fps e) (frame_counter e) (is_running e) (time_elapsed e) (time_event_type e) (levels e)
    (current_level e) (current_collision_listener e) (time_listeners e) (event_listeners e)
    (level_heap e) (sprite_heap e) (sdl_queue e) (sdl_userevents e) v.

(** Appends one entry to the log. *)
Definition record (o : Obs) (e : Engine) : Engine := set_log (log e ++ [o]) e.

(** ** Results *)

(** Why an execution has no defined behaviour. *)
Inductive Fault :=
| NullDeref              (* a call through a pointer that points to no object *)
| UseAfterFree           (* a call on a sprite that was deleted *)
| DoubleFree             (* delete of a sprite that is not alive *)
| InvalidatedIterator    (* a traversal goes on after its vector was changed *)
| DivisionByZero
| IntOverflow.           (* a double outside the range of int is cast to int *)

Inductive Result (A : Type) :=
| Ok (a : A)
| UB (f : Fault).
Arguments Ok {A} a.
Arguments UB {A} f.

#[global] Instance Result_ret : MRet Result := fun A a => Ok a.
#[global] Instance Result_bind : MBind Result :=
  fun A B k r => match r with Ok a => k a | UB f => UB f end.

(** ** The application and the parts of the engine outside [Engine.cpp]
    and [Level.cpp] *)

(** What a listener can do to the engine: call its public functions, those
    of a [Level], and the setters of a sprite. *)
Inductive Cmd :=
| CQuit
| CAddLevel (p : LevelPtr)
| CSetCurrentLevel (p : LevelPtr)
| CSetCollisionListener (l : FnPtr)
| CAddTimeListener (l : FnPtr) (delay : Z)
| CAddEventListener (l : FnPtr) (key_code : Z)
| CAddSprite (p : LevelPtr) (s : Sprite)
| CRemoveSprite (p : LevelPtr) (s : Sprite)
| CSetLoaded (p : LevelPtr) (b : bool)
| CSetWindow (p : LevelPtr)
| CSetX (s : Sprite) (x : Z)
| CSetY (s : Sprite) (y : Z).

(** The code behind each function pointer and each sprite, as the sequence of
    calls it makes given the state it is called in; and
    [Sprite::Contains(Sprite* )], which is declared in [Sprite.h] and defined
    in a file that is not part of the sources at hand: a test on the two
    boundaries. *)
Record Extern := mkExtern {
  listener_code : FnPtr -> Engine -> list Cmd;
  collision_code : FnPtr -> Sprite -> Sprite -> Engine -> list Cmd;
  sprite_event_code : Sprite -> SDL_Event -> Engine -> list Cmd;
  rect_contains : Rect -> Rect -> bool
}.

(** ** [Level.cpp] *)

(** The loop of [Level::RemoveSprite] over the vector: after
    [sprites.erase(sprites.begin() + i)] the element that followed moves to
    index [i], and [i++] steps over it without comparing it. *)
Fixpoint erase_loop (sprite : Sprite) (v : list Sprite) : list Sprite :=
  match v with
  | [] => []
  | x :: rest =>
      if decide (sprite = x)
      then match rest with
           | [] => []
           | y :: rest' => y :: erase_loop sprite rest'
           end
      else x :: erase_loop sprite rest
  end.

(** [Level::AddSprite]. *)
Definition Level_AddSprite (p : LevelPtr) (sprite : Sprite) (e : Engine) : Result Engine :=
  match level_heap e !! p with
  | None => UB NullDeref
  | Some L =>
      let L' := mkLevel (sprites L ++ [sprite]) (is_loaded L) (has_window L)
                        (S (sprites_version L)) in
      let e' := set_level_heap (<[p := L']> (level_heap e)) e in
      if is_loaded L
      then if has_window L then Ok (record (OLoadSprite sprite) e') else UB NullDeref
      else Ok e'
  end.

(** [Level::RemoveSprite]: [delete sprite], then the loop of erasures. *)
Definition Level_RemoveSprite (p : LevelPtr) (sprite : Sprite) (e : Engine) : Result Engine :=
  match level_heap e !! p with
  | None => UB NullDeref
  | Some L =>
      match sprite_heap e !! sprite with
      | None => UB DoubleFree
      | Some _ =>
          let v := erase_loop sprite (sprites L) in
          let ver := if decide (v = sprites L) then sprites_version L
                     else S (sprites_version L) in
          let L' := mkLevel v (is_loaded L) (has_window L) ver in
          Ok (set_level_heap (<[p := L']> (level_heap e))
                (set_sprite_heap (delete sprite (sprite_heap e)) e))
      end
  end.

(** [Level::GetSprites]: the vector, returned by value. *)
Definition Level_GetSprites (p : LevelPtr) (e : Engine) : Result (list Sprite) :=
  match level_heap e !! p with
  | None => UB NullDeref
  | Some L => Ok (sprites L)
  end.

(** [Level::SetLoaded] and [Level::SetWindow]. *)
Definition Level_SetLoaded (p : LevelPtr) (b : bool) (e : Engine) : Result Engine :=
  match level_heap e !! p with
  | None => UB NullDeref
  | Some L =>
      Ok (set_level_heap
            (<[p := mkLevel (sprites L) b (has_window L) (sprites_version L)]> (level_heap e)) e)
  end.

Definition Level_SetWindow (p : LevelPtr) (e : Engine) : Result Engine :=
  match level_heap e !! p with
  | None => UB NullDeref
  | Some L =>
      Ok (set_level_heap
            (<[p := mkLevel (sprites L) (is_loaded L) true (sprites_version L)]> (level_heap e)) e)
  end.

(** The setters of a sprite's boundary. *)
Definition Sprite_SetX (s : Sprite) (x : Z) (e : Engine) : Result Engine :=
  match sprite_heap e !! s with
  | None => UB UseAfterFree
  | Some r =>
      Ok (set_sprite_heap (<[s := mkRect x (rect_y r) (rect_w r) (rect_h r)]> (sprite_heap e)) e)
  end.

Definition Sprite_SetY (s : Sprite) (y : Z) (e : Engine) : Result Engine :=
  match sprite_heap e !! s with
  | None => UB UseAfterFree
  | Some r =>
      Ok (set_sprite_heap (<[s := mkRect (rect_x r) y (rect_w r) (rect_h r)]> (sprite_heap e)) e)
  end.

(** ** [Engine.cpp]: the public functions *)

Definition AddLevel (level : LevelPtr) (e : Engine) : Engine :=
  set_levels (levels e ++ [level]) e.

Definition SetCurrentLevel (level : LevelPtr) (e : Engine) : Engine :=
  record (OLoadLevel level) (set_current_level (Some level) e).

Definition SetCollisionListener (listener : FnPtr) (e : Engine) : Engine :=
  set_current_collision_listener listener e.

(** [time_listeners[delay] = listener]. *)
Definition AddTimeListener (listener : FnPtr) (delay : Z) (e : Engine) : Engine :=
  set_time_listeners (<[delay := listener]> (time_listeners e)) e.

Definition AddEventListener (listener : FnPtr) (key_code : Z) (e : Engine) : Engine :=
  set_event_listeners (<[key_code := listener]> (event_listeners e)) e.

Definition Quit (e : Engine) : Engine :=
  record OQuit (set_is_running false e).

(** One call made by a listener, and a sequence of them. *)
Definition exec_cmd (c : Cmd) (e : Engine) : Result Engine :=
  match c with
  | CQuit => Ok (Quit e)
  | CAddLevel p => Ok (AddLevel p e)
  | CSetCurrentLevel p => Ok (SetCurrentLevel p e)
  | CSetCollisionListener l => Ok (SetCollisionListener l e)
  | CAddTimeListener l d => Ok (AddTimeListener l d e)
  | CAddEventListener l k => Ok (AddEventListener l k e)
  | CAddSprite p s => Level_AddSprite p s e
  | CRemoveSprite p s => Level_RemoveSprite p s e
  | CSetLoaded p b => Level_SetLoaded p b e
  | CSetWindow p => Level_SetWindow p e
  | CSetX s x => Sprite_SetX s x e
  | CSetY s y => Sprite_SetY s y e
  end.

Fixpoint run_cmds (cs : list Cmd) (e : Engine) : Result Engine :=
  match cs with
  | [] => Ok e
  | c :: rest => e' ← exec_cmd c e; run_cmds rest e'
  end.

(** ** Traversals *)

(** A range-based [for] over a vector.  [valid] tells whether the iterators
    of the traversal are still valid after the body ran: going on with
    invalid iterators is undefined. *)
Fixpoint range_for {A : Type} (valid : Engine -> bool)
    (body : A -> Engine -> Result Engine) (v : list A) (e : Engine) : Result Engine :=
  match v with
  | [] => Ok e
  | x :: rest =>
      e' ← body x e;
      if valid e' then range_for valid body rest e' else UB InvalidatedIterator
  end.

(** The iterators of a traversal of the member [sprites] of level [p] that
    began at version [ver] are valid as long as the vector was not changed. *)
Definition sprites_intact (p : LevelPtr) (ver : nat) (e : Engine) : bool :=
  match level_heap e !! p with
  | Some L => bool_decide (sprites_version L = ver)
  | None => false
  end.

(** A temporary vector is reachable by nothing but its traversal. *)
Definition temporary_intact (e : Engine) : bool := true.

(** The entry of a [std::map<int, event_listener>] that follows key [c]: the
    one with the least key above [c]. *)
Definition next_entry (c : Z) (m : gmap Z FnPtr) : option (Z * FnPtr) :=
  foldr (fun kv acc =>
           if bool_decide (c < kv.1 ∧ kv.1 ≤ INT_MAX)
           then match acc with
                | Some kv' => if kv.1 <? kv'.1 then Some kv else acc
                | None => Some kv
                end
           else acc)
        None (map_to_list m).

(** Where a traversal of a map stands: past the entry with key [k], or at
    the end. *)
Inductive Cursor :=
| AtEnd (e : Engine)
| Past (k : Z) (e : Engine).

(** One turn of a range-based [for] over a map of the engine.  The map is
    read where it lives, at every turn: insertions made by the body are seen
    (they invalidate no iterator of a [std::map]). *)
Definition map_step (get : Engine -> gmap Z FnPtr)
    (body : Z -> FnPtr -> Engine -> Result Engine) (c : Z) (e : Engine) : Result Cursor :=
  match next_entry c (get e) with
  | None => Ok (AtEnd e)
  | Some (k, l) => e' ← body k l e; Ok (Past k e')
  end.

(** [2 ^ depth] turns, or fewer when the end is reached. *)
Fixpoint advance (depth : nat) (step : Z -> Engine -> Result Cursor)
    (c : Z) (e : Engine) : Result Cursor :=
  match depth with
  | O => step c e
  | S d =>
      match advance d step c e with
      | Ok (Past c' e') => advance d step c' e'
      | r => r
      end
  end.

(** The traversal from the entry after [c] on.  The keys are [int]s and each
    turn moves to a greater one, so [2 ^ 33] turns reach the end from
    anywhere (lemma [map_from_unfold]); the branch [Past] below is never
    taken. *)
Definition map_from (get : Engine -> gmap Z FnPtr)
    (body : Z -> FnPtr -> Engine -> Result Engine) (c : Z) (e : Engine) : Result Engine :=
  match advance 33 (map_step get body) c e with
  | Ok (AtEnd e') => Ok e'
  | Ok (Past _ e') => Ok e'
  | UB f => UB f
  end.

Definition map_for (get : Engine -> gmap Z FnPtr)
    (body : Z -> FnPtr -> Engine -> Result Engine) (e : Engine) : Result Engine :=
  map_from get body (INT_MIN - 1) e.

(** ** [Engine.cpp]: dispatch, timers, collisions and the main loop *)

Section Engine.
Variable X : Extern.

(** A call through an [event_listener]. *)
Definition call_listener (l : FnPtr) (e : Engine) : Result Engine :=
  if decide (l = nullptr) then UB NullDeref else run_cmds (listener_code X l e) e.

(** [sprite->Contains(other_sprite)]. *)
Definition Sprite_Contains (sprite other_sprite : Sprite) (e : Engine) : Result bool :=
  match sprite_heap e !! sprite, sprite_heap e !! other_sprite with
  | Some r, Some r' => Ok (rect_contains X r r')
  | _, _ => UB UseAfterFree
  end.

(** [sprite->DelegateEvent(event)]: the listeners of the sprite. *)
Definition Sprite_DelegateEvent (sprite : Sprite) (event : SDL_Event) (e : Engine)
    : Result Engine :=
  match sprite_heap e !! sprite with
  | None => UB UseAfterFree
  | Some _ =>
      let e' := record (OSpriteEvent sprite event) e in
      run_cmds (sprite_event_code X sprite event e') e'
  end.

(** [Level::PropagateEventToSprites]: a traversal of the member [sprites]
    itself. *)
Definition Level_PropagateEventToSprites (p : LevelPtr) (event : SDL_Event) (e : Engine)
    : Result Engine :=
  match level_heap e !! p with
  | None => UB NullDeref
  | Some L =>
      range_for (sprites_intact p (sprites_version L))
                (fun sprite => Sprite_DelegateEvent sprite event) (sprites L) e
  end.

(** The body of the loop of [HandleEvent]. *)
Definition HandleEvent_entry (event : SDL_Event) (mouse_event : bool)
    (key : Z) (l : FnPtr) (e : Engine) : Result Engine :=
  if mouse_event && bool_decide (to_Uint32 key = ev_type event)
  then call_listener l (record (OEventListener key l) e)
  else if negb mouse_event && bool_decide (key = ev_sym event)
  then call_listener l (record (OEventListener key l) e)
  else Ok e.

Definition HandleEvent (event : SDL_Event) (mouse_event : bool) (e : Engine) : Result Engine :=
  map_for event_listeners (HandleEvent_entry event mouse_event) e.

(** [*((int* )p)]. *)
Definition load_int (p : IntPtr) (e : Engine) : Result Z :=
  match p with
  | AddrFps => Ok (fps e)
  | AddrFrameCounter => Ok (to_int (frame_counter e))
  | AddrInt v => Ok v
  | AddrNull => UB NullDeref
  end.

(** The body of the loop of [HandleTime]. *)
Definition HandleTime_entry (event : SDL_Event) (delay : Z) (l : FnPtr) (e : Engine)
    : Result Engine :=
  fps' ← load_int (ev_data1 event) e;
  frame_counter' ← load_int (ev_data2 event) e;
  match time_rhs fps' delay with
  | None => UB IntOverflow
  | Some rhs =>
      if 0 <? rhs
      then if Z.rem frame_counter' rhs =? 0
           then call_listener l (record (OTimeListener delay l) e)
           else Ok e
      else call_listener l (record (OTimeListener delay l) e)
  end.

Definition HandleTime (event : SDL_Event) (e : Engine) : Result Engine :=
  map_for time_listeners (HandleTime_entry event) e.

(** [current_level->...]. *)
Definition deref_current_level (e : Engine) : Result LevelPtr :=
  match current_level e with
  | Some p => Ok p
  | None => UB NullDeref
  end.

Definition is_mouse_event (t : Z) : bool :=
  bool_decide (t = SDL_MOUSEMOTION) || bool_decide (t = SDL_MOUSEBUTTONDOWN)
  || bool_decide (t = SDL_MOUSEBUTTONUP) || bool_decide (t = SDL_MOUSEWHEEL).

(** The [if ... else if ...] of [DelegateEvent]. *)
Definition route_event (event : SDL_Event) (e : Engine) : Result Engine :=
  if is_mouse_event (ev_type event) then HandleEvent event true e
  else if bool_decide (ev_type event = SDL_KEYDOWN) then HandleEvent event false e
  else if bool_decide (ev_type event = time_event_type e) then HandleTime event e
  else if bool_decide (ev_type event = SDL_QUIT) then Ok (Quit e)
  else Ok e.

Definition DelegateEvent (event : SDL_Event) (e : Engine) : Result Engine :=
  e1 ← route_event event e;
  p ← deref_current_level e1;
  Level_PropagateEventToSprites p event e1.

(** [while (SDL_PollEvent(&event)) DelegateEvent(event);].  Nothing the
    engine or a listener calls adds to the queue while it is drained, so as
    many turns as there are pending events empty it (lemma
    [PollEvent_drains]). *)
Fixpoint poll_loop (n : nat) (e : Engine) : Result Engine :=
  match n with
  | O => Ok e
  | S n' =>
      match sdl_queue e with
      | [] => Ok e
      | event :: pending =>
          e' ← DelegateEvent event (set_sdl_queue pending e);
          poll_loop n' e'
      end
  end.

Definition PollEvent (e : Engine) : Result Engine :=
  poll_loop (length (sdl_queue e)) e.

(** The body of the inner loop of [DetectCollision]. *)
Definition collide (sprite other_sprite : Sprite) (e : Engine) : Result Engine :=
  if decide (sprite = other_sprite) then Ok e
  else
    match Sprite_Contains sprite other_sprite e with
    | UB f => UB f
    | Ok false => Ok e
    | Ok true =>
        if decide (current_collision_listener e = nullptr) then Ok e
        else
          let l := current_collision_listener e in
          let e' := record (OCollision l sprite other_sprite) e in
          run_cmds (collision_code X l sprite other_sprite e') e'
    end.

(** [DetectCollision]: each loop runs over the temporary that
    [current_level->GetSprites()] returned when the loop began. *)
Definition DetectCollision_inner (sprite : Sprite) (e : Engine) : Result Engine :=
  p ← deref_current_level e;
  v ← Level_GetSprites p e;
  range_for temporary_intact (collide sprite) v e.

Definition DetectCollision (e : Engine) : Result Engine :=
  p ← deref_current_level e;
  v ← Level_GetSprites p e;
  range_for temporary_intact DetectCollision_inner v e.

(** [SDL_RegisterEvents(1)], as SDL2 implements it. *)
Definition SDL_RegisterEvents (e : Engine) : Z * Engine :=
  if sdl_userevents e + 1 <=? SDL_LASTEVENT
  then (sdl_userevents e,
        record (ORegisterEvents (sdl_userevents e)) (set_sdl_userevents (sdl_userevents e + 1) e))
  else (NO_EVENT_TYPE, record (ORegisterEvents NO_EVENT_TYPE) e).

(** [SDL_PushEvent]: the event joins the queue. *)
Definition SDL_PushEvent (event : SDL_Event) (e : Engine) : Engine :=
  record (OPushEvent event) (set_sdl_queue (sdl_queue e ++ [event]) e).

Definition EmitTimeEvent (e : Engine) : Engine :=
  let e1 := if bool_decide (time_event_type e = 0)
            then let '(id, e') := SDL_RegisterEvents e in set_time_event_type id e'
            else e in
  if bool_decide (time_event_type e1 ≠ NO_EVENT_TYPE)
  then SDL_PushEvent (mkEvent (time_event_type e1) 0 AddrFps AddrFrameCounter) e1
  else e1.

(** What reaches one turn of the main loop from outside: the events the
    platform has queued by the time the queue is polled, and the two readings
    of the clock. *)
Record Frame := mkFrame {
  arrivals : list SDL_Event;
  start_time : Z;
  stop_time : Z
}.

(** [SDL_Delay(1000 / fps)]: the quotient of two [int]s, passed as a
    [Uint32]. *)
Definition frame_delay (e : Engine) : Result Z :=
  if decide (fps e = 0) then UB DivisionByZero else Ok (to_Uint32 (Z.quot 1000 (fps e))).

(** The body of the loop of [Run]. *)
Definition iteration (f : Frame) (e : Engine) : Result Engine :=
  let e := record (OStep (SGetTimestamp (start_time f))) e in
  let e := set_sdl_queue (sdl_queue e ++ arrivals f) e in
  e ← PollEvent (record (OStep SPollEvent) e);
  let e := record (OStep (SDrawSprites (time_elapsed e))) e in
  let e := set_frame_counter (to_Uint32 (frame_counter e + 1))
             (record (OStep SIncrementFrameCounter) e) in
  e ← DetectCollision (record (OStep SDetectCollision) e);
  let e := EmitTimeEvent (record (OStep SEmitTimeEvent) e) in
  ms ← frame_delay e;
  let e := record (OStep (SDelay ms)) e in
  let e := record (OStep (SGetTimestamp (stop_time f))) e in
  Ok (set_time_elapsed (stop_time f - start_time f)
        (record (OStep (SSetTimeElapsed (start_time f) (stop_time f))) e)).

(** [while (is_running) { ... }], for as many turns as [frames] describes. *)
Fixpoint Run_loop (frames : list Frame) (e : Engine) : Result Engine :=
  match frames with
  | [] => Ok e
  | f :: rest =>
      if is_running e
      then e' ← iteration f e; Run_loop rest e'
      else Ok e
  end.

Definition Run (frames : list Frame) (e : Engine) : Result Engine :=
  Run_loop frames (set_is_running true e).

End Engine.
(** [n] turns of a traversal, one at a time; [advance depth] makes
    [2 ^ depth] of them (lemma [advance_turns]). *)
Fixpoint turns (n : nat) (step : Z -> Engine -> Result Cursor)
    (c : Z) (e : Engine) : Result Cursor :=
  match n with
  | O => Ok (Past c e)
  | S n' =>
      match step c e with
      | Ok (Past c' e') => turns n' step c' e'
      | r => r
      end
  end.

(** ** What the statements below are written with *)

(** The entries a call of a listener can add to the log are those of the
    public functions; dispatch and the collision pass add the calls of
    listeners and sprites; the statements of [Run] and the calls of the
    platform's event functions are added by [Run] and [EmitTimeEvent] only. *)
Definition cmd_obs (o : Obs) : Prop :=
  match o with
  | OQuit | OLoadLevel _ | OLoadSprite _ => True
  | _ => False
  end.

Definition route_obs (o : Obs) : Prop :=
  match o with
  | OQuit | OLoadLevel _ | OLoadSprite _ | OEventListener _ _ | OTimeListener _ _ => True
  | _ => False
  end.

Definition dispatch_obs (o : Obs) : Prop :=
  match o with
  | OStep _ | ORegisterEvents _ | OPushEvent _ => False
  | _ => True
  end.

(** [evolves P e e']: [e'] comes from [e] by calls that leave the frame
    data and the platform alone, add to the log only entries in [P], and
    never set [is_running] again once it is false or [Quit] was called, and
    leave [is_running] alone unless [Quit] is called. *)
Record evolves (P : Obs -> Prop) (e e' : Engine) : Prop := mk_evolves {
  evo_fps : fps e' = fps e;
  evo_frame_counter : frame_counter e' = frame_counter e;
  evo_time_elapsed : time_elapsed e' = time_elapsed e;
  evo_time_event_type : time_event_type e' = time_event_type e;
  evo_sdl_queue : sdl_queue e' = sdl_queue e;
  evo_sdl_userevents : sdl_userevents e' = sdl_userevents e;
  evo_log : exists d, log e' = log e ++ d /\ Forall P d /\
                      (is_running e = false \/ OQuit ∈ d -> is_running e' = false) /\
                      (OQuit ∉ d -> is_running e' = is_running e)
}.

(** How often an entry occurs in a piece of the log. *)
Definition occurrences (o : Obs) (d : list Obs) : nat := count_occ Obs_eq_dec d o.

(** The calls of the collision listener, and those of sprites, in a piece
    of the log, in order. *)
Definition collision_calls (d : list Obs) : list Obs :=
  omap (fun o => match o with OCollision _ _ _ => Some o | _ => None end) d.

Definition sprite_calls (d : list Obs) : list Obs :=
  omap (fun o => match o with OSpriteEvent _ _ => Some o | _ => None end) d.

Definition run_steps (d : list Obs) : list RunStep :=
  omap (fun o => match o with OStep s => Some s | _ => None end) d.

Definition register_calls (d : list Obs) : list Z :=
  omap (fun o => match o with ORegisterEvents a => Some a | _ => None end) d.

(** The test of [DetectCollision] on two sprites that are alive. *)
Definition overlap_now (X : Extern) (e : Engine) (a b : Sprite) : bool :=
  match sprite_heap e !! a, sprite_heap e !! b with
  | Some r, Some r' => rect_contains X r r'
  | _, _ => false
  end.

(** The calls of listener [l] for the ordered pairs of distinct sprites of
    [v] that pass the test, in the order in which the two loops of
    [DetectCollision] meet them. *)
Definition expected_collisions (l : FnPtr) (hit : Sprite -> Sprite -> bool)
    (v : list Sprite) : list Obs :=
  a ← v; b ← v; if bool_decide (a ≠ b) && hit a b then [OCollision l a b] else [].

(** What [DetectCollision] reads. *)
Definition collision_view (e : Engine)
    : option LevelPtr * gmap LevelPtr Level * gmap Sprite Rect * FnPtr :=
  (current_level e, level_heap e, sprite_heap e, current_collision_listener e).

(** The collision listener [l] does not fault and changes nothing of what
    the collision pass reads. *)
Definition collision_listener_quiet (X : Extern) (l : FnPtr) : Prop :=
  forall a b e, exists e', run_cmds (collision_code X l a b e) e = Ok e' /\
                           collision_view e' = collision_view e.

(** No listener of a sprite faults, or changes a level or deletes a sprite,
    on event [ev]. *)
Definition sprite_listeners_quiet (X : Extern) (ev : SDL_Event) : Prop :=
  forall s e, exists e', run_cmds (sprite_event_code X s ev e) e = Ok e' /\
                         level_heap e' = level_heap e /\ sprite_heap e' = sprite_heap e.

Definition emit_obs (o : Obs) : Prop :=
  match o with
  | ORegisterEvents _ | OPushEvent _ => True
  | _ => False
  end.

Definition delay_calls (d : list Obs) : list Z :=
  omap (fun o => match o with OStep (SDelay ms) => Some ms | _ => None end) d.

Definition push_calls (d : list Obs) : list SDL_Event :=
  omap (fun o => match o with OPushEvent ev => Some ev | _ => None end) d.

(** The event [EmitTimeEvent] pushes. *)
Definition time_event (e : Engine) : SDL_Event :=
  mkEvent (time_event_type e) 0 AddrFps AddrFrameCounter.

(** The firing rule of a time listener in the words of the specification:
    with [rhs = round((fps / 1000) * delay)], fire iff
    [frame_counter mod rhs = 0] when [rhs > 0], and on every frame
    otherwise. *)
Definition fires (fps frame_counter delay : Z) : bool :=
  match time_rhs fps delay with
  | Some rhs => if 0 <? rhs then bool_decide (frame_counter mod rhs = 0) else true
  | None => false
  end.

(** The collision pass in the words of the specification: each of the two
    traversals runs over a snapshot of the sequence of the active level,
    taken when the traversal begins. *)
Fixpoint over_snapshot {A : Type} (body : A -> Engine -> Result Engine)
    (snapshot : list A) (e : Engine) : Result Engine :=
  match snapshot with
  | [] => Ok e
  | x :: rest => e' ← body x e; over_snapshot body rest e'
  end.

Definition collision_pass_over_snapshots (X : Extern) (e : Engine) : Result Engine :=
  p ← deref_current_level e;
  outer ← Level_GetSprites p e;
  over_snapshot
    (fun a e1 =>
       p1 ← deref_current_level e1;
       inner ← Level_GetSprites p1 e1;
       over_snapshot (collide X a) inner e1)
    outer e.

(** The registered delays are [int]s, none of their listeners is null, and
    the number of frames of each period fits an [int]. *)
Definition timers_ok (fps : Z) (m : gmap Z FnPtr) : Prop :=
  map_Forall (fun delay l => INT_MIN <= delay <= INT_MAX /\ l <> nullptr /\
                             is_Some (time_rhs fps delay)) m.

(** No listener of the application faults or changes the time listeners. *)
Definition timers_untouched (X : Extern) : Prop :=
  forall l e, exists e', run_cmds (listener_code X l e) e = Ok e' /\
                         time_listeners e' = time_listeners e.

(** ** More of [Engine.cpp] and [Level.cpp] *)

(** [Engine::GetTimestamp], on the [timeval] that [gettimeofday] filled:
    [(time.tv_sec * 1000) + (time.tv_usec / 1000)] in [long] arithmetic
    (64 bits; no overflow while [tv_sec] is below [2 ^ 53]). *)
Definition GetTimestamp (tv_sec tv_usec : Z) : Z :=
  tv_sec * 1000 + Z.quot tv_usec 1000.

(** [Engine::SetTimeElapsed]: [time_elapsed = (double)(stop_time - start_time)],
    an integer that a double holds exactly below [2 ^ 53]. *)
Definition SetTimeElapsed (start_time stop_time : Z) (e : Engine) : Engine :=
  set_time_elapsed (stop_time - start_time) e.

(** [Engine::GetTimeElapsed]. *)
Definition GetTimeElapsed (e : Engine) : Z := time_elapsed e.

(** The loop of [Level::~Level]: [delete sprite] for each element of the
    vector. *)
Fixpoint delete_sprites (v : list Sprite) (heap : gmap Sprite Rect)
    : Result (gmap Sprite Rect) :=
  match v with
  | [] => Ok heap
  | sprite :: rest =>
      match heap !! sprite with
      | None => UB DoubleFree
      | Some _ => delete_sprites rest (delete sprite heap)
      end
  end.

(** [delete level]: the destructor, then the level is gone. *)
Definition Level_delete (p : LevelPtr) (e : Engine) : Result Engine :=
  match level_heap e !! p with
  | None => UB DoubleFree
  | Some L =>
      heap ← delete_sprites (sprites L) (sprite_heap e);
      Ok (set_level_heap (delete p (level_heap e)) (set_sprite_heap heap e))
  end.

(** The loop of [Engine::~Engine] over [levels]. *)
Fixpoint delete_levels (v : list LevelPtr) (e : Engine) : Result Engine :=
  match v with
  | [] => Ok e
  | level :: rest => e' ← Level_delete level e; delete_levels rest e'
  end.

Definition Engine_destroy (e : Engine) : Result Engine := delete_levels (levels e) e.

(** A listener matches an event: [HandleEvent] compares its key with the
    type of a mouse event, and with the key code of a key event. *)
Definition event_matches (event : SDL_Event) (mouse_event : bool) (key : Z) : bool :=
  if mouse_event then bool_decide (to_Uint32 key = ev_type event)
  else bool_decide (key = ev_sym event).

(** The registered keys are [int]s and none of their listeners is null. *)
Definition listeners_ok (m : gmap Z FnPtr) : Prop :=
  map_Forall (fun key l => INT_MIN <= key <= INT_MAX /\ l <> nullptr) m.

(** No listener of the application faults or changes the event listeners. *)
Definition event_listeners_untouched (X : Extern) : Prop :=
  forall l e, exists e', run_cmds (listener_code X l e) e = Ok e' /\
                         event_listeners e' = event_listeners e.

(** The delays of the time listeners called in a piece of the log. *)
Definition timer_delays (d : list Obs) : list Z :=
  omap (fun o => match o with OTimeListener delay _ => Some delay | _ => None end) d.

(** The entries that the propagation to the sprites adds to the log. *)
Definition sprite_obs (o : Obs) : Prop :=
  match o with
  | OQuit | OLoadLevel _ | OLoadSprite _ | OSpriteEvent _ _ => True
  | _ => False
  end.

(** The vector of level [p] in [e'] is the one of [e], or was changed since
    (and then its version is greater). *)
Definition sequence_kept (p : LevelPtr) (e e' : Engine) : Prop :=
  forall L, level_heap e !! p = Some L ->
  exists L', level_heap e' !! p = Some L' /\
    (sprites_version L <= sprites_version L')%nat /\
    (sprites_version L' = sprites_version L -> sprites L' = sprites L).

(** ** [EngineX/Engine.cpp]: the first loop of the engine *)

(** The [switch] in the inner loop of [Engine::Run]: [SDL_QUIT] quits; a
    key press quits when the key is Escape, and falls through to [default]
    otherwise. *)
Definition EngineX_handle (event : SDL_Event) (is_running : bool) : bool :=
  if bool_decide (ev_type event = SDL_QUIT) then false
  else if bool_decide (ev_type event = SDL_KEYDOWN)
  then if bool_decide (ev_sym event = 27) then false else is_running
  else is_running.

(** [while (SDL_PollEvent(&event)) { switch ... }] over the events that are
    pending. *)
Fixpoint EngineX_poll (pending : list SDL_Event) (is_running : bool) : bool :=
  match pending with
  | [] => is_running
  | event :: rest => EngineX_poll rest (EngineX_handle event is_running)
  end.

(** [while (is_running) { ... }]: each turn polls the events that are
    pending at that moment; the result is the flag and the batches that were
    not polled. *)
Fixpoint EngineX_Run_loop (batches : list (list SDL_Event)) (is_running : bool)
    : bool * list (list SDL_Event) :=
  match batches with
  | [] => (is_running, [])
  | pending :: rest =>
      if is_running then EngineX_Run_loop rest (EngineX_poll pending is_running)
      else (is_running, batches)
  end.

Definition EngineX_Run (batches : list (list SDL_Event)) : bool * list (list SDL_Event) :=
  EngineX_Run_loop batches true.

(** An event that makes the first engine quit. *)
Definition EngineX_quits (event : SDL_Event) : bool :=
  bool_decide (ev_type event = SDL_QUIT)
  || (bool_decide (ev_type event = SDL_KEYDOWN) && bool_decide (ev_sym event = 27)).

(** ** A small game, for the examples *)

(** Two rectangles overlap. *)
Definition aabb_overlap (r r' : Rect) : bool :=
  (rect_x r <? rect_x r' + rect_w r') && (rect_x r' <? rect_x r + rect_w r) &&
  (rect_y r <? rect_y r' + rect_h r') && (rect_y r' <? rect_y r + rect_h r).

(** Function 5 quits the game; the other functions and the sprites only
    look. *)
Definition demo_app : Extern :=
  mkExtern (fun l _ => if decide (l = 5%nat) then [CQuit] else [])
           (fun _ _ _ _ => [])
           (fun _ _ _ => [])
           aabb_overlap.

Definition SDLK_ESCAPE : Z := 27.

(** 30 frames per second; level 1 holds sprite 10 at (0,0,10,10), sprite 11
    at (5,5,10,10) and sprite 12 at (100,100,10,10); function 7 listens to
    collisions, function 5 to the escape key, functions 6 and 8 to the
    periods of 1000 and 500 milliseconds. *)
Definition demo_engine : Engine :=
  mkEngine 30 0 true 0 0 [1%nat] (Some 1%nat) 7%nat
    (<[1000 := 6%nat]> (<[500 := 8%nat]> ∅))
    (<[SDLK_ESCAPE := 5%nat]> ∅)
    (<[1%nat := mkLevel [10%nat; 11%nat; 12%nat] true true 0]> ∅)
    (<[10%nat := mkRect 0 0 10 10]>
       (<[11%nat := mkRect 5 5 10 10]> (<[12%nat := mkRect 100 100 10 10]> ∅)))
    [] SDL_USEREVENT [].

Definition escape_pressed : SDL_Event := mkEvent SDL_KEYDOWN SDLK_ESCAPE AddrNull AddrNull.

Definition quiet_frame : Frame := mkFrame [] 0 33.
Definition escape_frame : Frame := mkFrame [escape_pressed] 40 73.

(** The engine after the turn in which the escape key arrives. *)
Definition after_escape : Engine :=
  Eval vm_compute in
    match iteration demo_app escape_frame demo_engine with
    | Ok e' => e'
    | UB _ => demo_engine
    end.

(** The engine after a turn in which nothing arrives. *)
Definition after_quiet : Engine :=
  Eval vm_compute in
    match iteration demo_app quiet_frame demo_engine with
    | Ok e' => e'
    | UB _ => demo_engine
    end.

(** The engine after three turns, the escape key arriving in the second. *)
Definition after_three_frames : Engine :=
  Eval vm_compute in
    match Run_loop demo_app [quiet_frame; escape_frame; quiet_frame] demo_engine with
    | Ok e' => e'
    | UB _ => demo_engine
    end.

(** The demo engine at frame 120. *)
Definition demo_engine_at_120 : Engine := set_frame_counter 120 demo_engine.

(** The demo engine after the routing of the escape key to the listeners of
    the engine, before the sprites get the event. *)
Definition after_escape_routed : Engine :=
  Eval vm_compute in
    match route_event demo_app escape_pressed demo_engine with
    | Ok e' => e'
    | UB _ => demo_engine
    end.

(** A game in which the listener of sprite 10 removes sprite 12 from level 1
    when an event reaches it. *)
Definition remover_app : Extern :=
  mkExtern (fun _ _ => [])
           (fun _ _ _ _ => [])
           (fun s _ _ => if decide (s = 10%nat) then [CRemoveSprite 1%nat 12%nat] else [])
           aabb_overlap.

(** A game in which the collision listener, called for the pair (10, 11),
    adds sprite 13 to level 1; the engine below holds sprite 13 at
    (0,0,20,20), outside any level. *)
Definition adder_app : Extern :=
  mkExtern (fun _ _ => [])
           (fun _ a b _ => if decide (a = 10%nat /\ b = 11%nat)
                           then [CAddSprite 1%nat 13%nat] else [])
           (fun _ _ _ => [])
           aabb_overlap.

Definition adder_engine : Engine :=
  set_sprite_heap (<[13%nat := mkRect 0 0 20 20]> (sprite_heap demo_engine)) demo_engine.

(** The demo engine at frame 120 with the time event of the turn before in
    the queue, and what polling makes of it. *)
Definition polling_engine : Engine :=
  set_sdl_queue [time_event (set_time_event_type SDL_USEREVENT demo_engine_at_120)]
    (set_time_event_type SDL_USEREVENT demo_engine_at_120).

Definition after_poll : Engine :=
  Eval vm_compute in
    match PollEvent demo_app polling_engine with
    | Ok e' => e'
    | UB _ => polling_engine
    end.

(** * Proofs *)

Lemma bind_Ok {A B} (r : Result A) (k : A -> Result B) (b : B) :
  (r ≫= k) = Ok b -> exists a, r = Ok a /\ k a = Ok b.
Proof. destruct r as [a|f]; simpl; [eauto | discriminate]. Qed.

(** *** The entry after a key *)

Lemma next_entry_list_spec (c : Z) (l : list (Z * FnPtr)) :
  match foldr (fun kv acc =>
           if bool_decide (c < kv.1 ∧ kv.1 ≤ INT_MAX)
           then match acc with
                | Some kv' => if kv.1 <? kv'.1 then Some kv else acc
                | None => Some kv
                end
           else acc) None l with
  | Some kv => kv ∈ l /\ c < kv.1 <= INT_MAX /\
               forall kv', kv' ∈ l -> c < kv'.1 <= INT_MAX -> kv.1 <= kv'.1
  | None => forall kv', kv' ∈ l -> ~ (c < kv'.1 <= INT_MAX)
  end.
Proof.
  induction l as [|kv l IH]; simpl.
  - intros kv' H. inversion H.
  - destruct (foldr _ None l) as [best|] eqn:E.
    + destruct IH as (Hin & Hr & Hmin).
      case_bool_decide as Hkv.
      * destruct (kv.1 <? best.1) eqn:Hlt.
        -- apply Z.ltb_lt in Hlt. split; [left|]. split; [lia|].
           intros kv' Hin' Hr'. apply elem_of_cons in Hin' as [->|Hin']; [lia|].
           specialize (Hmin kv' Hin' Hr'). lia.
        -- apply Z.ltb_ge in Hlt. split; [right; done|]. split; [done|].
           intros kv' Hin' Hr'. apply elem_of_cons in Hin' as [->|Hin']; [lia|].
           by apply Hmin.
      * split; [right; done|]. split; [done|].
        intros kv' Hin' Hr'. apply elem_of_cons in Hin' as [->|Hin']; [lia|].
        by apply Hmin.
    + case_bool_decide as Hkv.
      * split; [left|]. split; [lia|].
        intros kv' Hin' Hr'. apply elem_of_cons in Hin' as [->|Hin']; [lia|].
        exfalso. by apply (IH kv').
      * intros kv' Hin'. apply elem_of_cons in Hin' as [->|Hin']; [lia|]. by apply IH.
Qed.

Lemma next_entry_Some c m k l :
  next_entry c m = Some (k, l) ->
  m !! k = Some l /\ c < k <= INT_MAX /\
  forall k' l', m !! k' = Some l' -> c < k' <= INT_MAX -> k <= k'.
Proof.
  intros H. pose proof (next_entry_list_spec c (map_to_list m)) as S.
  unfold next_entry in H. rewrite H in S. destruct S as (Hin & Hr & Hmin).
  apply elem_of_map_to_list in Hin. simpl in *. split; [done|]. split; [done|].
  intros k' l' Hk' Hr'. apply (Hmin (k', l')); [by apply elem_of_map_to_list | done].
Qed.

Lemma next_entry_None c m k l :
  next_entry c m = None -> m !! k = Some l -> ~ (c < k <= INT_MAX).
Proof.
  intros H Hk. pose proof (next_entry_list_spec c (map_to_list m)) as S.
  unfold next_entry in H. rewrite H in S.
  apply (S (k, l)). by apply elem_of_map_to_list.
Qed.
(** *** Traversals of a map reach the end *)

Lemma turns_add n m step c e :
  turns (n + m) step c e =
  match turns n step c e with
  | Ok (Past c' e') => turns m step c' e'
  | r => r
  end.
Proof.
  revert c e. induction n as [|n IH]; intros c e; simpl; [done|].
  destruct (step c e) as [[e'|c' e']|f]; [done| |done]. apply IH.
Qed.

Lemma advance_turns d step c e :
  advance d step c e = turns (2 ^ d) step c e.
Proof.
  revert c e. induction d as [|d IH]; intros c e.
  - simpl. by destruct (step c e) as [[?|? ?]|?].
  - cbn [advance]. rewrite IH.
    replace (2 ^ S d)%nat with (2 ^ d + 2 ^ d)%nat by (rewrite Nat.pow_succ_r'; lia).
    rewrite turns_add. destruct (turns (2 ^ d) step c e) as [[e'|c' e']|f]; [done| |done].
    apply IH.
Qed.

Lemma turns_rise n step c e k e' :
  (forall c e k e', step c e = Ok (Past k e') -> c < k <= INT_MAX) ->
  turns n step c e = Ok (Past k e') ->
  c + Z.of_nat n <= k /\ (n = 0%nat -> k = c) /\ (n <> 0%nat -> k <= INT_MAX).
Proof.
  intros Hstep. revert c e. induction n as [|n IH]; intros c e H; simpl in H.
  - injection H as -> ->. split; [lia | done].
  - destruct (step c e) as [[e1|c1 e1]|f] eqn:E; try discriminate.
    apply Hstep in E. apply IH in H as (H1 & H2 & H3).
    split; [lia|]. split; [done|]. intros _.
    destruct (decide (n = 0%nat)) as [Hn|Hn]; [rewrite (H2 Hn); lia | by apply H3].
Qed.

Lemma map_step_rises get body c e k e' :
  map_step get body c e = Ok (Past k e') -> c < k <= INT_MAX.
Proof.
  unfold map_step. destruct (next_entry c (get e)) as [[k0 l0]|] eqn:E; [|discriminate].
  intros H. apply bind_Ok in H as (e1 & _ & H). injection H as <- _.
  by apply next_entry_Some in E as (_ & ? & _).
Qed.

Lemma advance_unfold d get body c e :
  2 ^ 32 < 2 ^ Z.of_nat d ->
  INT_MIN - 1 <= c ->
  match advance d (map_step get body) c e with
  | Ok (AtEnd e') => Ok e'
  | Ok (Past _ e') => Ok e'
  | UB f => UB f
  end =
  match next_entry c (get e) with
  | None => Ok e
  | Some (k, l) =>
      e1 ← body k l e;
      match advance d (map_step get body) k e1 with
      | Ok (AtEnd e') => Ok e'
      | Ok (Past _ e') => Ok e'
      | UB f => UB f
      end
  end.
Proof.
  intros Hd Hc.
  assert (Hpow : Z.of_nat (2 ^ d) = 2 ^ Z.of_nat d) by apply Nat2Z.inj_pow.
  rewrite advance_turns.
  destruct (2 ^ d)%nat as [|N] eqn:EN; [simpl in Hpow; lia|].
  cbn [turns]. unfold map_step at 1.
  destruct (next_entry c (get e)) as [[k l]|] eqn:E; [|done].
  destruct (body k l e) as [e1|f]; simpl; [|done].
  apply next_entry_Some in E as (_ & Hk & _).
  rewrite advance_turns, EN.
  replace (S N) with (N + 1)%nat by lia. rewrite turns_add.
  destruct (turns N (map_step get body) k e1) as [[e2|c2 e2]|f] eqn:ET; [done| |done].
  apply turns_rise in ET as (H1 & _ & H2); [|apply map_step_rises].
  exfalso. assert (HN : N <> 0%nat) by lia. specialize (H2 HN).
  unfold INT_MIN, INT_MAX in *. lia.
Qed.

(** The equation of the traversal of a map. *)
Lemma map_from_unfold get body c e :
  INT_MIN - 1 <= c ->
  map_from get body c e =
  match next_entry c (get e) with
  | None => Ok e
  | Some (k, l) => e' ← body k l e; map_from get body k e'
  end.
Proof.
  intros Hc. unfold map_from. apply advance_unfold; [reflexivity | done].
Qed.
(** *** Rules for the two kinds of loops *)

Lemma map_from_partial (I : Z -> Engine -> Prop) get body c e e' :
  INT_MIN - 1 <= c -> I c e ->
  (forall c e k l e1, INT_MIN - 1 <= c -> I c e ->
     next_entry c (get e) = Some (k, l) -> body k l e = Ok e1 -> I k e1) ->
  map_from get body c e = Ok e' ->
  exists c', c <= c' /\ I c' e' /\ next_entry c' (get e') = None.
Proof.
  intros Hc HI Hstep H.
  remember (Z.to_nat (INT_MAX - c)) as n eqn:Hn.
  revert c e Hc HI Hn H. induction n as [n IH] using lt_wf_ind. intros c e Hc HI Hn H.
  rewrite map_from_unfold in H by done.
  destruct (next_entry c (get e)) as [[k l]|] eqn:E.
  - apply bind_Ok in H as (e1 & Hb & H).
    pose proof (next_entry_Some _ _ _ _ E) as (_ & Hk & _).
    destruct (IH (Z.to_nat (INT_MAX - k)) ltac:(lia) k e1) as (c' & Hc' & HI' & Hend);
      [lia | by eapply Hstep | done | done |].
    exists c'. split; [lia | done].
  - injection H as <-. exists c. split; [lia | done].
Qed.

Lemma map_from_total (I : Z -> Engine -> Prop) get body c e :
  INT_MIN - 1 <= c -> I c e ->
  (forall c e k l, INT_MIN - 1 <= c -> I c e ->
     next_entry c (get e) = Some (k, l) -> exists e1, body k l e = Ok e1 /\ I k e1) ->
  exists e' c', map_from get body c e = Ok e' /\ c <= c' /\ I c' e' /\
                next_entry c' (get e') = None.
Proof.
  intros Hc HI Hstep.
  remember (Z.to_nat (INT_MAX - c)) as n eqn:Hn.
  revert c e Hc HI Hn. induction n as [n IH] using lt_wf_ind. intros c e Hc HI Hn.
  rewrite map_from_unfold by done.
  destruct (next_entry c (get e)) as [[k l]|] eqn:E.
  - destruct (Hstep c e k l Hc HI E) as (e1 & Hb & HI1). rewrite Hb. simpl.
    pose proof (next_entry_Some _ _ _ _ E) as (_ & Hk & _).
    destruct (IH (Z.to_nat (INT_MAX - k)) ltac:(lia) k e1) as (e' & c' & H & Hc' & HI' & Hend);
      [lia | done | done |].
    exists e', c'. split; [done|]. split; [lia | done].
  - exists e, c. split; [done|]. split; [lia | done].
Qed.

Lemma range_for_partial {A} (I : list A -> Engine -> Prop) valid body (v : list A) e e' :
  I [] e ->
  (forall pre x post e e1, v = pre ++ x :: post -> I pre e -> body x e = Ok e1 ->
     valid e1 = true -> I (pre ++ [x]) e1) ->
  range_for valid body v e = Ok e' -> I v e'.
Proof.
  intros HI Hstep.
  assert (G : forall post pre e, v = pre ++ post -> I pre e ->
              range_for valid body post e = Ok e' -> I v e').
  { induction post as [|x post IH]; intros pre e0 Hv HI0 H; simpl in H.
    - injection H as <-. rewrite Hv, app_nil_r. done.
    - apply bind_Ok in H as (e1 & Hb & H).
      destruct (valid e1) eqn:Hval; [|discriminate].
      apply (IH (pre ++ [x]) e1); [by rewrite <- app_assoc | by eapply Hstep | done]. }
  intros H. by apply (G v [] e).
Qed.

Lemma range_for_total {A} (I : list A -> Engine -> Prop) valid body (v : list A) e :
  I [] e ->
  (forall pre x post e, v = pre ++ x :: post -> I pre e ->
     exists e1, body x e = Ok e1 /\ valid e1 = true /\ I (pre ++ [x]) e1) ->
  exists e', range_for valid body v e = Ok e' /\ I v e'.
Proof.
  intros HI Hstep.
  assert (G : forall post pre e, v = pre ++ post -> I pre e ->
              exists e', range_for valid body post e = Ok e' /\ I v e').
  { induction post as [|x post IH]; intros pre e0 Hv HI0; simpl.
    - exists e0. rewrite Hv, app_nil_r. done.
    - destruct (Hstep pre x post e0 Hv HI0) as (e1 & Hb & Hval & HI1).
      rewrite Hb. simpl. rewrite Hval.
      apply (IH (pre ++ [x]) e1); [by rewrite <- app_assoc | done]. }
  by apply (G v [] e).
Qed.

(** *** [evolves] *)

Lemma evolves_refl P e : evolves P e e.
Proof.
  split; try done. exists []. rewrite app_nil_r. split; [done|]. split; [constructor|].
  split; [|done]. intros [H|H]; [done | inversion H].
Qed.

Lemma evolves_trans P e1 e2 e3 : evolves P e1 e2 -> evolves P e2 e3 -> evolves P e1 e3.
Proof.
  intros [A1 A2 A3 A4 A5 A6 (d & Hd & HP & Hq & Hk)]
         [B1 B2 B3 B4 B5 B6 (d' & Hd' & HP' & Hq' & Hk')].
  split; try congruence.
  exists (d ++ d'). split; [by rewrite Hd', Hd, app_assoc|].
  split; [by apply Forall_app|]. split.
  - intros [H|H]; [by apply Hq'; left; apply Hq; left|].
    apply elem_of_app in H as [H|H]; [apply Hq'; left; apply Hq; by right | apply Hq'; by right].
  - intros Hno. rewrite Hk', Hk; [done | |]; intros Hin; apply Hno, elem_of_app; tauto.
Qed.

Lemma evolves_mono (P Q : Obs -> Prop) e e' :
  (forall o, P o -> Q o) -> evolves P e e' -> evolves Q e e'.
Proof.
  intros HPQ [A1 A2 A3 A4 A5 A6 (d & Hd & HP & Hq)]. split; try done.
  exists d. split; [done|]. split; [|done]. eapply Forall_impl; eauto.
Qed.

Lemma evolves_same P e e' :
  fps e' = fps e -> frame_counter e' = frame_counter e -> time_elapsed e' = time_elapsed e ->
  time_event_type e' = time_event_type e -> sdl_queue e' = sdl_queue e ->
  sdl_userevents e' = sdl_userevents e -> log e' = log e -> is_running e' = is_running e ->
  evolves P e e'.
Proof.
  intros. split; try done. exists []. rewrite app_nil_r. split; [done|].
  split; [constructor|]. split; [|done]. intros [H'|H']; [congruence | inversion H'].
Qed.

Lemma evolves_record (P : Obs -> Prop) o e : P o -> o <> OQuit -> evolves P e (record o e).
Proof.
  intros HP Ho. split; try done. exists [o]. split; [done|]. split; [by constructor|].
  split; [|done]. intros [H|H]; [done|]. apply list_elem_of_singleton in H. congruence.
Qed.

Lemma evolves_Quit (P : Obs -> Prop) e : P OQuit -> evolves P e (Quit e).
Proof.
  intros HP. split; try done. exists [OQuit]. split; [done|]. split; [by constructor|].
  split; [done|]. intros Hno. exfalso. apply Hno. by apply list_elem_of_singleton.
Qed.

Lemma exec_cmd_evolves c e e' : exec_cmd c e = Ok e' -> evolves cmd_obs e e'.
Proof.
  destruct c; simpl; intros H.
  - injection H as <-. by apply evolves_Quit.
  - injection H as <-. by apply evolves_same.
  - injection H as <-.
    eapply evolves_trans; [|by apply evolves_record]. by apply evolves_same.
  - injection H as <-. by apply evolves_same.
  - injection H as <-. by apply evolves_same.
  - injection H as <-. by apply evolves_same.
  - unfold Level_AddSprite in H. destruct (level_heap e !! p) as [L|]; [|done].
    destruct (is_loaded L); [destruct (has_window L); [|done]|]; injection H as <-.
    + eapply evolves_trans; [|by apply evolves_record]. by apply evolves_same.
    + by apply evolves_same.
  - unfold Level_RemoveSprite in H. destruct (level_heap e !! p) as [L|]; [|done].
    destruct (sprite_heap e !! s); [|done]. injection H as <-. by apply evolves_same.
  - unfold Level_SetLoaded in H. destruct (level_heap e !! p) as [L|]; [|done].
    injection H as <-. by apply evolves_same.
  - unfold Level_SetWindow in H. destruct (level_heap e !! p) as [L|]; [|done].
    injection H as <-. by apply evolves_same.
  - unfold Sprite_SetX in H. destruct (sprite_heap e !! s); [|done].
    injection H as <-. by apply evolves_same.
  - unfold Sprite_SetY in H. destruct (sprite_heap e !! s); [|done].
    injection H as <-. by apply evolves_same.
Qed.

Lemma run_cmds_evolves cs e e' : run_cmds cs e = Ok e' -> evolves cmd_obs e e'.
Proof.
  revert e. induction cs as [|c cs IH]; intros e H; simpl in H.
  - injection H as <-. apply evolves_refl.
  - apply bind_Ok in H as (e1 & Hc & H).
    eapply evolves_trans; [by eapply exec_cmd_evolves | by apply IH].
Qed.

Lemma cmd_obs_dispatch o : cmd_obs o -> dispatch_obs o.
Proof. by destruct o. Qed.

Lemma cmd_obs_route o : cmd_obs o -> route_obs o.
Proof. by destruct o. Qed.

Lemma route_obs_dispatch o : route_obs o -> dispatch_obs o.
Proof. by destruct o. Qed.

Lemma call_listener_evolves X l e e' : call_listener X l e = Ok e' -> evolves cmd_obs e e'.
Proof.
  unfold call_listener. destruct (decide (l = nullptr)); [done|]. apply run_cmds_evolves.
Qed.

Lemma range_for_evolves {A} P valid body (v : list A) e e' :
  (forall x e e', body x e = Ok e' -> evolves P e e') ->
  range_for valid body v e = Ok e' -> evolves P e e'.
Proof.
  intros Hb H.
  apply (range_for_partial (fun _ e1 => evolves P e e1)) in H; [done | apply evolves_refl |].
  intros pre x post e0 e1 _ H0 Hx _. eapply evolves_trans; [done | by eapply Hb].
Qed.

Lemma map_from_evolves P get body c e e' :
  INT_MIN - 1 <= c ->
  (forall k l e e', body k l e = Ok e' -> evolves P e e') ->
  map_from get body c e = Ok e' -> evolves P e e'.
Proof.
  intros Hc Hb H.
  apply (map_from_partial (fun _ e1 => evolves P e e1)) in H as (c' & _ & H & _);
    [done | done | apply evolves_refl |].
  intros c0 e0 k l e1 _ H0 _ Hx. eapply evolves_trans; [done | by eapply Hb].
Qed.

Lemma HandleEvent_evolves X ev m e e' :
  HandleEvent X ev m e = Ok e' -> evolves route_obs e e'.
Proof.
  apply map_from_evolves; [done|]. intros k l e0 e1. unfold HandleEvent_entry.
  assert (G : call_listener X l (record (OEventListener k l) e0) = Ok e1 ->
              evolves route_obs e0 e1).
  { intros H. eapply evolves_trans; [by apply (evolves_record _ (OEventListener k l))|].
    eapply evolves_mono; [apply cmd_obs_route | by eapply call_listener_evolves]. }
  repeat case_match; try done. intros [= <-]. apply evolves_refl.
Qed.

Lemma load_int_evolves P p e e' : evolves P e e' -> load_int p e' = load_int p e.
Proof. intros [A1 A2 _ _ _ _ _]. destruct p; simpl; congruence. Qed.

Lemma HandleTime_evolves X ev e e' :
  HandleTime X ev e = Ok e' -> evolves route_obs e e'.
Proof.
  apply map_from_evolves; [done|]. intros k l e0 e1. unfold HandleTime_entry.
  assert (G : call_listener X l (record (OTimeListener k l) e0) = Ok e1 ->
              evolves route_obs e0 e1).
  { intros H. eapply evolves_trans; [by apply (evolves_record _ (OTimeListener k l))|].
    eapply evolves_mono; [apply cmd_obs_route | by eapply call_listener_evolves]. }
  intros H. apply bind_Ok in H as (f & _ & H). apply bind_Ok in H as (i & _ & H).
  revert H. repeat case_match; try done. intros [= <-]. apply evolves_refl.
Qed.

Lemma Sprite_DelegateEvent_evolves X s ev e e' :
  Sprite_DelegateEvent X s ev e = Ok e' -> evolves dispatch_obs e e'.
Proof.
  unfold Sprite_DelegateEvent. destruct (sprite_heap e !! s); [|done]. intros H.
  eapply evolves_trans; [by apply (evolves_record _ (OSpriteEvent s ev))|].
  eapply evolves_mono; [apply cmd_obs_dispatch | by eapply run_cmds_evolves].
Qed.

Lemma PropagateEventToSprites_evolves X p ev e e' :
  Level_PropagateEventToSprites X p ev e = Ok e' -> evolves dispatch_obs e e'.
Proof.
  unfold Level_PropagateEventToSprites. destruct (level_heap e !! p); [|done].
  apply range_for_evolves. intros s e0 e1. apply Sprite_DelegateEvent_evolves.
Qed.

Lemma route_event_evolves X ev e e' :
  route_event X ev e = Ok e' -> evolves route_obs e e'.
Proof.
  unfold route_event. repeat case_match.
  - apply HandleEvent_evolves.
  - apply HandleEvent_evolves.
  - apply HandleTime_evolves.
  - intros [= <-]. by apply evolves_Quit.
  - intros [= <-]. apply evolves_refl.
Qed.

Lemma DelegateEvent_evolves X ev e e' :
  DelegateEvent X ev e = Ok e' -> evolves dispatch_obs e e'.
Proof.
  unfold DelegateEvent. intros H.
  apply bind_Ok in H as (e1 & H1 & H). apply bind_Ok in H as (p & _ & H).
  eapply evolves_trans; [|by eapply PropagateEventToSprites_evolves].
  eapply evolves_mono; [apply route_obs_dispatch | by eapply route_event_evolves].
Qed.

Lemma collide_evolves X a b e e' : collide X a b e = Ok e' -> evolves dispatch_obs e e'.
Proof.
  unfold collide. destruct (decide (a = b)); [intros H; injection H as <-; apply evolves_refl|].
  destruct (Sprite_Contains X a b e) as [[|]|]; [| |done].
  - destruct (decide (current_collision_listener e = nullptr)).
    + intros H; injection H as <-; apply evolves_refl.
    + intros H. eapply evolves_trans; [by apply (evolves_record _ (OCollision (current_collision_listener e) a b))|].
      eapply evolves_mono; [apply cmd_obs_dispatch | by eapply run_cmds_evolves].
  - intros H; injection H as <-; apply evolves_refl.
Qed.

Lemma DetectCollision_inner_evolves X a e e' :
  DetectCollision_inner X a e = Ok e' -> evolves dispatch_obs e e'.
Proof.
  unfold DetectCollision_inner. intros H.
  apply bind_Ok in H as (p & _ & H). apply bind_Ok in H as (v & _ & H).
  revert H. apply range_for_evolves. intros b e0 e1. apply collide_evolves.
Qed.

Lemma DetectCollision_evolves X e e' :
  DetectCollision X e = Ok e' -> evolves dispatch_obs e e'.
Proof.
  unfold DetectCollision. intros H.
  apply bind_Ok in H as (p & _ & H). apply bind_Ok in H as (v & _ & H).
  revert H. apply range_for_evolves. intros b e0 e1. apply DetectCollision_inner_evolves.
Qed.
(** *** The main loop *)

Lemma poll_loop_evolves X n e e' :
  (length (sdl_queue e) <= n)%nat ->
  poll_loop X n e = Ok e' -> evolves dispatch_obs (set_sdl_queue [] e) e'.
Proof.
  revert e. induction n as [|n IH]; intros e Hlen H; simpl in H.
  - injection H as <-. destruct (sdl_queue e) eqn:Eq; [|simpl in Hlen; lia].
    by apply evolves_same.
  - destruct (sdl_queue e) as [|ev q] eqn:Eq.
    + injection H as <-. by apply evolves_same.
    + apply bind_Ok in H as (e1 & H1 & H).
      apply DelegateEvent_evolves in H1.
      assert (Hq : sdl_queue e1 = q) by (by rewrite (evo_sdl_queue _ _ _ H1)).
      apply IH in H; [|rewrite Hq; simpl in Hlen; lia].
      eapply evolves_trans; [|exact H].
      destruct H1 as [A1 A2 A3 A4 A5 A6 A7]. split; try done.
  Qed.

Lemma PollEvent_evolves X e e' :
  PollEvent X e = Ok e' -> evolves dispatch_obs (set_sdl_queue [] e) e'.
Proof. by apply poll_loop_evolves. Qed.

(** Polling empties the queue. *)
Lemma PollEvent_drains X e e' : PollEvent X e = Ok e' -> sdl_queue e' = [].
Proof. intros H. apply PollEvent_evolves in H. by rewrite (evo_sdl_queue _ _ _ H). Qed.

Lemma EmitTimeEvent_spec e :
  let e' := EmitTimeEvent e in
  fps e' = fps e /\ frame_counter e' = frame_counter e /\ time_elapsed e' = time_elapsed e /\
  is_running e' = is_running e /\
  (time_event_type e <> 0 -> time_event_type e' = time_event_type e) /\
  (time_event_type e <> 0 \/ 0 < sdl_userevents e -> time_event_type e' <> 0) /\
  sdl_userevents e <= sdl_userevents e' /\
  sdl_queue e' = sdl_queue e ++
    (if bool_decide (time_event_type e' ≠ NO_EVENT_TYPE) then [time_event e'] else []) /\
  exists d, log e' = log e ++ d /\ Forall emit_obs d /\
    register_calls d =
      (if bool_decide (time_event_type e = 0) then [time_event_type e'] else []) /\
    push_calls d =
      (if bool_decide (time_event_type e' ≠ NO_EVENT_TYPE) then [time_event e'] else []).
Proof.
  unfold EmitTimeEvent, SDL_RegisterEvents, SDL_PushEvent, time_event.
  assert (T : forall (P : Prop) `{Decision P}, P -> bool_decide P = true)
    by (intros; by apply bool_decide_eq_true_2).
  assert (F : forall (P : Prop) `{Decision P}, ~ P -> bool_decide P = false)
    by (intros; by apply bool_decide_eq_false_2).
  destruct (decide (time_event_type e = 0)) as [E0|E0].
  - rewrite (T _ _ E0).
    destruct (sdl_userevents e + 1 <=? SDL_LASTEVENT) eqn:Efree.
    + apply Z.leb_le in Efree. cbn -[NO_EVENT_TYPE].
      destruct (decide (sdl_userevents e ≠ NO_EVENT_TYPE)) as [Hne|Hne].
      * rewrite !(T _ _ Hne). cbn -[NO_EVENT_TYPE].
        repeat split; try done; try lia.
        eexists. split; [by rewrite <- app_assoc|]. split; [by repeat constructor|]. done.
      * rewrite !(F _ _ Hne). cbn -[NO_EVENT_TYPE].
        repeat split; try done; try lia; try (by rewrite app_nil_r).
        eexists. split; [done|]. split; [by repeat constructor|]. done.
    + cbn -[NO_EVENT_TYPE].
      assert (Hne : ~ NO_EVENT_TYPE ≠ NO_EVENT_TYPE) by (intros Hx; by apply Hx).
      rewrite !(F _ _ Hne). cbn -[NO_EVENT_TYPE].
      repeat split; try done; try lia; try (by rewrite app_nil_r).
      eexists. split; [done|]. split; [by repeat constructor|]. done.
  - rewrite (F _ _ E0).
    destruct (decide (time_event_type e ≠ NO_EVENT_TYPE)) as [Hne|Hne].
    + rewrite !(T _ _ Hne). cbn -[NO_EVENT_TYPE]. rewrite ?(T _ _ Hne).
      repeat split; try done; try lia.
      eexists. split; [done|]. split; [by repeat constructor|]. done.
    + rewrite !(F _ _ Hne). cbn -[NO_EVENT_TYPE].
      repeat split; try done; try lia; try (by rewrite app_nil_r).
      exists []. rewrite app_nil_r. done.
Qed.
(** The shape of one turn of the loop of [Run]. *)
Lemma iteration_shape X f e e' :
  iteration X f e = Ok e' ->
  exists d_poll d_coll d_emit,
    log e' = log e ++ [OStep (SGetTimestamp (start_time f)); OStep SPollEvent] ++ d_poll
               ++ [OStep (SDrawSprites (time_elapsed e)); OStep SIncrementFrameCounter;
                   OStep SDetectCollision] ++ d_coll
               ++ [OStep SEmitTimeEvent] ++ d_emit
               ++ [OStep (SDelay (to_Uint32 (Z.quot 1000 (fps e))));
                   OStep (SGetTimestamp (stop_time f));
                   OStep (SSetTimeElapsed (start_time f) (stop_time f))] /\
    Forall dispatch_obs d_poll /\ Forall dispatch_obs d_coll /\ Forall emit_obs d_emit /\
    fps e <> 0 /\ fps e' = fps e /\
    frame_counter e' = to_Uint32 (frame_counter e + 1) /\
    time_elapsed e' = stop_time f - start_time f /\
    (is_running e = false \/ OQuit ∈ d_poll ++ d_coll -> is_running e' = false) /\
    (OQuit ∉ d_poll ++ d_coll -> is_running e' = is_running e) /\
    sdl_queue e' =
      (if bool_decide (time_event_type e' ≠ NO_EVENT_TYPE) then [time_event e'] else []) /\
    register_calls d_emit =
      (if bool_decide (time_event_type e = 0) then [time_event_type e'] else []) /\
    push_calls d_emit =
      (if bool_decide (time_event_type e' ≠ NO_EVENT_TYPE) then [time_event e'] else []) /\
    (time_event_type e <> 0 -> time_event_type e' = time_event_type e) /\
    (time_event_type e <> 0 \/ 0 < sdl_userevents e -> time_event_type e' <> 0) /\
    sdl_userevents e <= sdl_userevents e'.
Proof.
  unfold iteration. intros H.
  apply bind_Ok in H as (e1 & H1 & H).
  apply bind_Ok in H as (e2 & H2 & H).
  apply bind_Ok in H as (ms & Hms & H). injection H as <-.
  apply PollEvent_evolves in H1. apply DetectCollision_evolves in H2.
  destruct H1 as [A1 A2 A3 A4 A5 A6 (d1 & Hd1 & HP1 & Hq1 & Hk1)].
  destruct H2 as [B1 B2 B3 B4 B5 B6 (d2 & Hd2 & HP2 & Hq2 & Hk2)].
  simpl in A1, A2, A3, A4, A5, A6, Hd1, Hq1, Hk1, B1, B2, B3, B4, B5, B6, Hd2, Hq2, Hk2.
  set (e3 := record (OStep SEmitTimeEvent) e2) in *.
  destruct (EmitTimeEvent_spec e3) as (C1 & C2 & C3 & C4 & C5 & C6 & C7 & C8 & d3 & Hd3 & HP3 & Hr3 & Hp3).
  set (e4 := EmitTimeEvent e3) in *.
  unfold frame_delay in Hms. destruct (decide (fps e4 = 0)) as [|Hfps]; [done|].
  injection Hms as <-.
  assert (Efps : fps e4 = fps e) by (rewrite C1; simpl; congruence).
  assert (Etet : time_event_type e3 = time_event_type e) by (simpl; congruence).
  assert (Eue : sdl_userevents e3 = sdl_userevents e) by (simpl; congruence).
  exists d1, d2, d3. simpl.
  split.
  { rewrite Hd3. simpl. rewrite Hd2. simpl. rewrite Hd1, A3, Efps.
    repeat (rewrite <- ?app_assoc; simpl). done. }
  repeat split; try done.
  - congruence.
  - rewrite C2. simpl. rewrite B2. simpl. by rewrite A2.
  - intros Hq. rewrite C4. simpl. apply Hq2. simpl.
    destruct Hq as [Hq|Hq]; [left; apply Hq1; by left|].
    apply elem_of_app in Hq as [Hq|Hq]; [left; apply Hq1; by right | by right].
  - intros Hno. rewrite C4. simpl. rewrite Hk2; simpl; [apply Hk1|];
      intros Hin; apply Hno, elem_of_app; tauto.
  - rewrite C8. simpl. by rewrite B5, A5.
  - by rewrite Hr3, Etet.
  - rewrite <- Etet. apply C5.
  - rewrite <- Etet, <- Eue. apply C6.
  - by rewrite <- Eue.
Qed.

Lemma omap_none {A B} (f : A -> option B) (P : A -> Prop) d :
  (forall o, P o -> f o = None) -> Forall P d -> omap f d = [].
Proof.
  intros HP. induction 1 as [|o d Ho _ IH]; [done|].
  change (omap f (o :: d)) with (match f o with Some y => y :: omap f d | None => omap f d end).
  by rewrite (HP o Ho).
Qed.

Lemma run_steps_dispatch d : Forall dispatch_obs d -> run_steps d = [].
Proof. apply omap_none. by intros []. Qed.

Lemma run_steps_emit d : Forall emit_obs d -> run_steps d = [].
Proof. apply omap_none. by intros []. Qed.

Lemma delay_calls_dispatch d : Forall dispatch_obs d -> delay_calls d = [].
Proof. apply omap_none. by intros []. Qed.

Lemma delay_calls_emit d : Forall emit_obs d -> delay_calls d = [].
Proof. apply omap_none. by intros []. Qed.

Lemma register_calls_dispatch d : Forall dispatch_obs d -> register_calls d = [].
Proof. apply omap_none. by intros []. Qed.

Lemma push_calls_dispatch d : Forall dispatch_obs d -> push_calls d = [].
Proof. apply omap_none. by intros []. Qed.

Lemma emit_obs_no_Quit d : Forall emit_obs d -> OQuit ∉ d.
Proof.
  intros H Hin. rewrite Forall_forall in H. by apply H in Hin.
Qed.

(** The statements of one turn, and how the turn ends a run. *)
Lemma iteration_steps X f e e' d :
  iteration X f e = Ok e' -> log e' = log e ++ d ->
  run_steps d =
    [SGetTimestamp (start_time f); SPollEvent; SDrawSprites (time_elapsed e);
     SIncrementFrameCounter; SDetectCollision; SEmitTimeEvent;
     SDelay (to_Uint32 (Z.quot 1000 (fps e))); SGetTimestamp (stop_time f);
     SSetTimeElapsed (start_time f) (stop_time f)] /\
  (is_running e = false \/ OQuit ∈ d -> is_running e' = false).
Proof.
  intros H Hd. apply iteration_shape in H
    as (d1 & d2 & d3 & Hlog & P1 & P2 & P3 & _ & _ & _ & _ & Hq & _ & _).
  rewrite Hlog in Hd. apply app_inv_head in Hd. subst d. split.
  - unfold run_steps. rewrite !omap_app. fold (run_steps d1) (run_steps d2) (run_steps d3).
    rewrite (run_steps_dispatch d1), (run_steps_dispatch d2), (run_steps_emit d3) by done.
    done.
  - intros [Hr|Hin]; [apply Hq; by left|]. apply Hq. right.
    rewrite !elem_of_app in Hin. rewrite elem_of_app.
    pose proof (emit_obs_no_Quit d3 P3) as N3.
    destruct Hin as [Hin|[Hin|[Hin|[Hin|[Hin|[Hin|Hin]]]]]]; try tauto;
      exfalso; repeat (apply elem_of_cons in Hin as [Hin|Hin]; [discriminate|]);
      by apply elem_of_nil in Hin.
Qed.
(** *** Claims about the main loop *)

(** C4.  If [Quit] is called at any point of a turn of the main loop (by a
    listener, or for the platform's quit event), the turn still runs all its
    statements, [is_running] is false when it ends, and [Run]'s loop returns
    right after it without starting another turn. *)
Theorem Quit_takes_effect_at_loop_top X f rest e e' d :
  is_running e = true ->
  iteration X f e = Ok e' ->
  log e' = log e ++ d ->
  OQuit ∈ d ->
  Run_loop X (f :: rest) e = Ok e' /\
  is_running e' = false /\
  run_steps d =
    [SGetTimestamp (start_time f); SPollEvent; SDrawSprites (time_elapsed e);
     SIncrementFrameCounter; SDetectCollision; SEmitTimeEvent;
     SDelay (to_Uint32 (Z.quot 1000 (fps e))); SGetTimestamp (stop_time f);
     SSetTimeElapsed (start_time f) (stop_time f)].
Proof.
  intros Hrun Hit Hd Hq.
  destruct (iteration_steps X f e e' d Hit Hd) as [Hsteps Hstop].
  assert (Hoff : is_running e' = false) by (apply Hstop; by right).
  split; [|done]. cbn [Run_loop]. rewrite Hrun, Hit. simpl.
  destruct rest; simpl; [done|]. by rewrite Hoff.
Qed.

Lemma Quit_takes_effect_at_loop_top_witness :
  Run_loop demo_app [escape_frame; quiet_frame] demo_engine = Ok after_escape /\
  is_running after_escape = false.
Proof.
  edestruct (Quit_takes_effect_at_loop_top demo_app escape_frame [quiet_frame]
               demo_engine after_escape (log after_escape)) as (A & B & _);
    [reflexivity | vm_compute; reflexivity | reflexivity
    | apply (bool_decide_unpack _); vm_compute; exact I
    | split; [exact A | exact B]].
Defined.

(** C5.  Every turn of the main loop runs, in this order: the reading of the
    clock, the polling and dispatch of all pending events, the drawing with
    the elapsed time of the turn before, the increment of the frame counter
    by one, the collision pass, the emission of the time event, the delay,
    the second reading of the clock and the update of the elapsed time.
    Dispatch and the collision pass add to the log only calls of listeners,
    of sprites and of public functions; afterwards the queue holds the time
    event of this turn and nothing else. *)
Theorem iteration_runs_nine_steps_in_order X f e e' :
  iteration X f e = Ok e' ->
  exists d_poll d_coll d_emit,
    log e' = log e ++ [OStep (SGetTimestamp (start_time f)); OStep SPollEvent] ++ d_poll
               ++ [OStep (SDrawSprites (time_elapsed e)); OStep SIncrementFrameCounter;
                   OStep SDetectCollision] ++ d_coll
               ++ [OStep SEmitTimeEvent] ++ d_emit
               ++ [OStep (SDelay (to_Uint32 (Z.quot 1000 (fps e))));
                   OStep (SGetTimestamp (stop_time f));
                   OStep (SSetTimeElapsed (start_time f) (stop_time f))] /\
    Forall dispatch_obs d_poll /\ Forall dispatch_obs d_coll /\ Forall emit_obs d_emit /\
    frame_counter e' = to_Uint32 (frame_counter e + 1) /\
    (0 <= frame_counter e < 2 ^ 32 - 1 -> frame_counter e' = frame_counter e + 1) /\
    time_elapsed e' = stop_time f - start_time f /\
    sdl_queue e' =
      (if bool_decide (time_event_type e' ≠ NO_EVENT_TYPE) then [time_event e'] else []).
Proof.
  intros H. apply iteration_shape in H
    as (d1 & d2 & d3 & Hlog & P1 & P2 & P3 & _ & _ & Hfc & Hte & _ & _ & Hq & _).
  exists d1, d2, d3. repeat split; try done.
  intros Hr. rewrite Hfc. unfold to_Uint32. apply Z.mod_small. lia.
Qed.

Lemma iteration_runs_nine_steps_in_order_witness :
  frame_counter after_quiet = 1 /\ time_elapsed after_quiet = 33 /\
  sdl_queue after_quiet = [mkEvent SDL_USEREVENT 0 AddrFps AddrFrameCounter].
Proof.
  destruct (iteration_runs_nine_steps_in_order demo_app quiet_frame demo_engine after_quiet)
    as (d1 & d2 & d3 & _ & _ & _ & _ & A & _ & B & C); [vm_compute; reflexivity|].
  split; [exact A|]. split; [exact B | exact C].
Defined.

(** C6.  In every turn of the main loop the delay asked of the platform is
    [1000 / fps] milliseconds, whatever the turn did before, for every
    positive [fps]; it is asked once. *)
Theorem delay_is_1000_div_fps X f e e' d :
  0 < fps e ->
  iteration X f e = Ok e' ->
  log e' = log e ++ d ->
  delay_calls d = [1000 / fps e].
Proof.
  intros Hfps H Hd. apply iteration_shape in H
    as (d1 & d2 & d3 & Hlog & P1 & P2 & P3 & _).
  rewrite Hlog in Hd. apply app_inv_head in Hd. subst d.
  unfold delay_calls. rewrite !omap_app.
  fold (delay_calls d1) (delay_calls d2) (delay_calls d3).
  rewrite (delay_calls_dispatch d1), (delay_calls_dispatch d2), (delay_calls_emit d3) by done.
  simpl. f_equal. rewrite Z.quot_div_nonneg by lia.
  unfold to_Uint32. apply Z.mod_small. split; [apply Z.div_pos; lia|].
  assert (1000 / fps e <= 1000) by (apply Z.div_le_upper_bound; nia). lia.
Qed.

Lemma delay_is_1000_div_fps_witness : delay_calls (log after_escape) = [33].
Proof.
  apply (delay_is_1000_div_fps demo_app escape_frame demo_engine after_escape);
    [reflexivity | vm_compute; reflexivity | reflexivity].
Defined.

Lemma iteration_registers X f e e1 :
  iteration X f e = Ok e1 ->
  exists d, log e1 = log e ++ d /\
    register_calls d = (if bool_decide (time_event_type e = 0) then [time_event_type e1] else []) /\
    push_calls d =
      (if bool_decide (time_event_type e1 ≠ NO_EVENT_TYPE) then [time_event e1] else []) /\
    (time_event_type e <> 0 -> time_event_type e1 = time_event_type e) /\
    (time_event_type e <> 0 \/ 0 < sdl_userevents e -> time_event_type e1 <> 0) /\
    sdl_userevents e <= sdl_userevents e1.
Proof.
  intros H. apply iteration_shape in H
    as (d1 & d2 & d3 & Hlog & P1 & P2 & P3 & _ & _ & _ & _ & _ & _ & _ & Hr & Hp & Hk & Hnz & Hue).
  eexists. split; [exact Hlog|]. repeat split; try done.
  - unfold register_calls. rewrite !omap_app.
    fold (register_calls d1) (register_calls d2) (register_calls d3).
    rewrite (register_calls_dispatch d1), (register_calls_dispatch d2), Hr by done.
    simpl. by rewrite app_nil_r.
  - unfold push_calls. rewrite !omap_app.
    fold (push_calls d1) (push_calls d2) (push_calls d3).
    rewrite (push_calls_dispatch d1), (push_calls_dispatch d2), Hp by done.
    simpl. by rewrite app_nil_r.
Qed.

Lemma Run_loop_registers X frames e e' :
  0 < sdl_userevents e ->
  Run_loop X frames e = Ok e' ->
  exists d, log e' = log e ++ d /\
    (length (register_calls d) <= 1)%nat /\
    (time_event_type e <> 0 ->
       register_calls d = [] /\ time_event_type e' = time_event_type e) /\
    (time_event_type e = NO_EVENT_TYPE -> push_calls d = []).
Proof.
  revert e. induction frames as [|f rest IH]; intros e Hue H; cbn [Run_loop] in H.
  - injection H as <-. exists []. rewrite app_nil_r. split; [done|]. split; [simpl; lia|]. done.
  - destruct (is_running e).
    + apply bind_Ok in H as (e1 & H1 & H).
      apply iteration_registers in H1 as (d1 & Hd1 & Hr1 & Hp1 & Hk1 & Hnz1 & Hue1).
      apply IH in H as (d2 & Hd2 & Hr2 & Hk2 & Hp2); [|lia].
      assert (Hnz : time_event_type e1 <> 0) by (apply Hnz1; by right).
      destruct (Hk2 Hnz) as [Hr2' Hk2'].
      exists (d1 ++ d2). split; [by rewrite Hd2, Hd1, app_assoc|].
      unfold register_calls, push_calls in *. rewrite !omap_app, Hr1, Hr2'.
      split; [destruct (bool_decide (time_event_type e = 0)); simpl; lia|]. split; [intros Hne; split|].
      * rewrite bool_decide_eq_false_2 by done. done.
      * rewrite Hk2'. by apply Hk1.
      * intros Hno. assert (Hne : time_event_type e <> 0) by (rewrite Hno; done).
        rewrite Hp1, Hp2 by (rewrite (Hk1 Hne); done).
        rewrite bool_decide_eq_false_2; [done|]. rewrite (Hk1 Hne), Hno. by intros Hx.
    + injection H as <-. exists []. rewrite app_nil_r. split; [done|]. split; [simpl; lia|]. done.
Qed.

(** C9.  In a run of the main loop [SDL_RegisterEvents] is called at most
    once, and only while the stored type is still 0.  When the platform has
    no user event type left, the call that finds this out stores
    [(Uint32)-1] and pushes nothing; from then on [EmitTimeEvent] changes
    nothing at all, nothing else in the engine changes the stored type, and
    no event is pushed in any later turn. *)
Theorem time_event_type_registered_once X frames e e' :
  0 < sdl_userevents e ->
  Run_loop X frames e = Ok e' ->
  (exists d, log e' = log e ++ d /\
     (length (register_calls d) <= 1)%nat /\
     (time_event_type e <> 0 ->
        register_calls d = [] /\ time_event_type e' = time_event_type e) /\
     (time_event_type e = NO_EVENT_TYPE -> push_calls d = [])) /\
  (forall s, time_event_type s = NO_EVENT_TYPE -> EmitTimeEvent s = s) /\
  (forall s, time_event_type s = 0 -> SDL_LASTEVENT <= sdl_userevents s ->
     EmitTimeEvent s =
       set_time_event_type NO_EVENT_TYPE (record (ORegisterEvents NO_EVENT_TYPE) s)).
Proof.
  intros Hue H. split; [by eapply Run_loop_registers|]. split.
  - intros s Hs. unfold EmitTimeEvent.
    rewrite (bool_decide_eq_false_2 (time_event_type s = 0)) by (rewrite Hs; done).
    rewrite bool_decide_eq_false_2; [done|]. intros Hx. by apply Hx.
  - intros s Hs Hfull. unfold EmitTimeEvent, SDL_RegisterEvents.
    rewrite (bool_decide_eq_true_2 (time_event_type s = 0)) by done.
    destruct (sdl_userevents s + 1 <=? SDL_LASTEVENT) eqn:E; [apply Z.leb_le in E; lia|].
    cbn -[NO_EVENT_TYPE]. rewrite bool_decide_eq_false_2; [done|]. intros Hx. by apply Hx.
Qed.

Lemma time_event_type_registered_once_witness :
  0 < sdl_userevents demo_engine /\
  (length (register_calls (log after_three_frames)) <= 1)%nat.
Proof.
  split; [reflexivity|].
  destruct (time_event_type_registered_once demo_app [quiet_frame; escape_frame; quiet_frame]
              demo_engine after_three_frames) as [(d & Hd & Hlen & _) _];
    [reflexivity | vm_compute; reflexivity |].
  change (log demo_engine ++ d) with d in Hd. rewrite Hd. exact Hlen.
Defined.

(** *** Time listeners *)

Lemma occurrences_app o d1 d2 :
  occurrences o (d1 ++ d2) = (occurrences o d1 + occurrences o d2)%nat.
Proof. apply count_occ_app. Qed.

Lemma occurrences_none (P : Obs -> Prop) o d : ~ P o -> Forall P d -> occurrences o d = 0%nat.
Proof.
  intros Ho HP. apply count_occ_not_In. intros Hin.
  rewrite Forall_forall in HP. apply Ho, HP. by apply list_elem_of_In.
Qed.

Lemma occurrences_one o o' :
  occurrences o [o'] = if bool_decide (o' = o) then 1%nat else 0%nat.
Proof.
  unfold occurrences. simpl. destruct (Obs_eq_dec o' o) as [->|Hne].
  - by rewrite bool_decide_eq_true_2.
  - by rewrite bool_decide_eq_false_2.
Qed.

Lemma rem_zero_mod_zero i r : 0 < r -> (Z.rem i r =? 0) = bool_decide (i mod r = 0).
Proof.
  intros Hr. destruct (Z.rem i r =? 0) eqn:E.
  - apply Z.eqb_eq in E. symmetry. apply bool_decide_eq_true_2.
    apply Z.mod_divide; [lia|]. apply Z.rem_divide in E; [done | lia].
  - apply Z.eqb_neq in E. symmetry. apply bool_decide_eq_false_2. intros Hm.
    apply E. apply Z.rem_divide; [lia|]. apply Z.mod_divide in Hm; [done | lia].
Qed.

(** The body of [HandleTime]'s loop calls the listener exactly when the
    rule [fires] says so. *)
Lemma HandleTime_entry_calls X ev e f i k l :
  load_int (ev_data1 ev) e = Ok f -> load_int (ev_data2 ev) e = Ok i ->
  l <> nullptr -> is_Some (time_rhs f k) -> timers_untouched X ->
  exists e' d, HandleTime_entry X ev k l e = Ok e' /\
    time_listeners e' = time_listeners e /\
    evolves dispatch_obs e e' /\
    log e' = log e ++ (if fires f i k then [OTimeListener k l] else []) ++ d /\
    Forall cmd_obs d.
Proof.
  intros Hf Hi Hl [rhs Hrhs] Hq. unfold HandleTime_entry, fires. rewrite Hf, Hi. simpl.
  rewrite Hrhs.
  assert (Call : exists e' d,
            call_listener X l (record (OTimeListener k l) e) = Ok e' /\
            time_listeners e' = time_listeners e /\ evolves dispatch_obs e e' /\
            log e' = log e ++ [OTimeListener k l] ++ d /\ Forall cmd_obs d).
  { unfold call_listener. destruct (decide (l = nullptr)); [done|].
    destruct (Hq l (record (OTimeListener k l) e)) as (e' & Hrun & Hsame).
    pose proof (run_cmds_evolves _ _ _ Hrun) as Hev.
    destruct (evo_log _ _ _ Hev) as (d & Hd & HP & _).
    exists e', d. split; [done|]. split; [done|]. split.
    - eapply evolves_trans; [by apply (evolves_record _ (OTimeListener k l))|].
      eapply evolves_mono; [apply cmd_obs_dispatch | done].
    - split; [|done]. rewrite Hd. simpl. by rewrite <- app_assoc. }
  assert (Skip : exists e' d, Ok e = Ok e' /\ time_listeners e' = time_listeners e /\
            evolves dispatch_obs e e' /\ log e' = log e ++ [] ++ d /\ Forall cmd_obs d).
  { exists e, []. rewrite !app_nil_r. split; [done|]. split; [done|].
    split; [apply evolves_refl | done]. }
  destruct (0 <? rhs) eqn:Epos; [|exact Call].
  apply Z.ltb_lt in Epos. rewrite rem_zero_mod_zero by done.
  destruct (bool_decide (i mod rhs = 0)); [exact Call | exact Skip].
Qed.

Lemma indicator_step (m : gmap Z FnPtr) (c k : Z) (l : FnPtr) (fire : Z -> bool)
    (k' : Z) (l' : FnPtr) :
  c < k -> m !! k = Some l ->
  (forall k0 l0, m !! k0 = Some l0 -> c < k0 -> k <= k0) ->
  Nat.add (if bool_decide (k' <= c /\ m !! k' = Some l') && fire k' then 1%nat else 0%nat)
          (if fire k
           then if bool_decide (OTimeListener k l = OTimeListener k' l') then 1%nat else 0%nat
           else 0%nat)
  = if bool_decide (k' <= k /\ m !! k' = Some l') && fire k' then 1%nat else 0%nat.
Proof.
  intros Hck Hmk Hmin.
  destruct (decide (k' <= c)) as [Hle|Hgt].
  - rewrite (bool_decide_eq_false_2 (OTimeListener k l = OTimeListener k' l'))
      by (intros [= -> ->]; lia).
    destruct (decide (m !! k' = Some l')) as [Hm|Hm].
    + rewrite !bool_decide_eq_true_2 by (split; [lia | done]).
      destruct (fire k'), (fire k); simpl; lia.
    + rewrite !bool_decide_eq_false_2 by tauto. destruct (fire k); simpl; lia.
  - rewrite (bool_decide_eq_false_2 (k' <= c /\ _)) by tauto. simpl.
    destruct (decide (k' = k)) as [->|Hne].
    + destruct (decide (l' = l)) as [->|Hl].
      * rewrite !bool_decide_eq_true_2 by (done || (split; [lia | done])).
        by destruct (fire k).
      * rewrite (bool_decide_eq_false_2 (OTimeListener k l = OTimeListener k l'))
          by (intros [= ->]; done).
        rewrite bool_decide_eq_false_2 by (intros [_ Hx]; congruence).
        by destruct (fire k).
    + rewrite (bool_decide_eq_false_2 (OTimeListener k l = OTimeListener k' l'))
        by (intros [= -> ->]; done).
      rewrite bool_decide_eq_false_2.
      * by destruct (fire k).
      * intros [Hle Hm]. specialize (Hmin k' l' Hm). lia.
Qed.

(** What [HandleTime] calls. *)
Lemma HandleTime_calls X ev e f i :
  load_int (ev_data1 ev) e = Ok f -> load_int (ev_data2 ev) e = Ok i ->
  timers_ok f (time_listeners e) -> timers_untouched X ->
  exists e' d, HandleTime X ev e = Ok e' /\ log e' = log e ++ d /\
    time_listeners e' = time_listeners e /\
    forall delay l,
      occurrences (OTimeListener delay l) d =
      if bool_decide (time_listeners e !! delay = Some l) && fires f i delay
      then 1%nat else 0%nat.
Proof.
  intros Hf Hi Hok Hq. set (m := time_listeners e).
  destruct (map_from_total
    (fun c e1 => time_listeners e1 = m /\ evolves dispatch_obs e e1 /\
       exists d, log e1 = log e ++ d /\
         forall k l, occurrences (OTimeListener k l) d =
           if bool_decide (k <= c /\ m !! k = Some l) && fires f i k then 1%nat else 0%nat)
    time_listeners (HandleTime_entry X ev) (INT_MIN - 1) e)
    as (e' & c' & Hrun & _ & (Hm' & Hev' & d & Hd & Hcount) & Hend).
  - done.
  - split; [done|]. split; [apply evolves_refl|]. exists []. rewrite app_nil_r. split; [done|].
    intros k l. rewrite bool_decide_eq_false_2; [done|].
    intros [Hle Hk]. apply Hok in Hk as [Hr _]. lia.
  - intros c e1 k l Hc (Hm1 & Hev1 & d & Hd & Hcount) Hnext.
    rewrite Hm1 in Hnext. apply next_entry_Some in Hnext as (Hmk & Hck & Hmin).
    pose proof (Hok k l Hmk) as (_ & Hl & Hrhs).
    destruct (HandleTime_entry_calls X ev e1 f i k l) as (e2 & dc & Hrun & Hm2 & Hev2 & Hd2 & Hdc);
      [by rewrite (load_int_evolves _ _ _ _ Hev1) | by rewrite (load_int_evolves _ _ _ _ Hev1)
      | done | done | done |].
    exists e2. split; [done|]. split; [congruence|].
    split; [by eapply evolves_trans|].
    eexists. split; [by rewrite Hd2, Hd, <- app_assoc|].
    intros k' l'. rewrite !occurrences_app, Hcount.
    rewrite (occurrences_none cmd_obs _ dc) by (done || by intros []).
    rewrite Nat.add_0_r.
    rewrite <- (indicator_step m c k l (fires f i) k' l' ltac:(lia) Hmk).
    + f_equal. destruct (fires f i k); [|done].
      rewrite occurrences_one.
      destruct (decide (OTimeListener k l = OTimeListener k' l')) as [Heq|Hne].
      * by rewrite !bool_decide_eq_true_2.
      * by rewrite !bool_decide_eq_false_2.
    + intros k0 l0 Hk0 Hc0. apply (Hmin k0 l0 Hk0).
      apply Hok in Hk0 as [Hr _]. lia.
  - exists e', d. split; [done|]. split; [done|]. split; [done|].
    intros k l. rewrite Hcount. f_equal. f_equal.
    destruct (decide (m !! k = Some l)) as [Hk|Hk].
    + rewrite !bool_decide_eq_true_2; [done | done |]. split; [|done].
      destruct (decide (k <= c')) as [|Hgt]; [done|]. exfalso.
      rewrite Hm' in Hend. apply (next_entry_None _ _ _ _ Hend Hk).
      apply Hok in Hk as [Hr _]. lia.
    + rewrite !bool_decide_eq_false_2; [done | done | tauto].
Qed.

Lemma demo_app_timers_untouched : timers_untouched demo_app.
Proof.
  intros l e. simpl. destruct (decide (l = 5%nat)); simpl; eexists; split; reflexivity.
Qed.

Lemma demo_timers_ok : timers_ok 30 (time_listeners demo_engine).
Proof.
  unfold timers_ok. simpl.
  apply map_Forall_insert_2; [|apply map_Forall_insert_2; [|apply map_Forall_empty]].
  - split; [unfold INT_MIN, INT_MAX; lia|]. split; [discriminate | vm_compute; eauto].
  - split; [unfold INT_MIN, INT_MAX; lia|]. split; [discriminate | vm_compute; eauto].
Qed.



(** C3.  After [AddTimeListener(L1, delay)] and then
    [AddTimeListener(L2, delay)] the engine is as if only the second call
    had been made: the entry of [delay] is [L2], the other entries are as
    before, and on a time event in any state with these entries the
    listener called for [delay] is [L2] and no other (never [L1], unless it
    is [L2]), while the listeners of the other delays are called as they
    were registered. *)
Theorem AddTimeListener_same_delay_replaces X ev e s f i L1 L2 delay :
  timers_ok f (time_listeners e) ->
  timers_untouched X ->
  INT_MIN <= delay <= INT_MAX -> L2 <> nullptr -> is_Some (time_rhs f delay) ->
  time_listeners s =
    time_listeners (AddTimeListener L2 delay (AddTimeListener L1 delay e)) ->
  load_int (ev_data1 ev) s = Ok f ->
  load_int (ev_data2 ev) s = Ok i ->
  AddTimeListener L2 delay (AddTimeListener L1 delay e) = AddTimeListener L2 delay e /\
  time_listeners (AddTimeListener L2 delay (AddTimeListener L1 delay e)) !! delay = Some L2 /\
  (forall delay', delay' <> delay ->
     time_listeners (AddTimeListener L2 delay (AddTimeListener L1 delay e)) !! delay'
     = time_listeners e !! delay') /\
  exists s' d,
    HandleTime X ev s = Ok s' /\ log s' = log s ++ d /\
    (forall l, occurrences (OTimeListener delay l) d =
               if bool_decide (l = L2) && fires f i delay then 1%nat else 0%nat) /\
    (forall delay' l, delay' <> delay ->
       occurrences (OTimeListener delay' l) d =
       if bool_decide (time_listeners e !! delay' = Some l) && fires f i delay'
       then 1%nat else 0%nat).
Proof.
  intros Hok Hq Hr HL2 Hrhs Hs Hf Hi.
  assert (Hm : time_listeners s = <[delay := L2]> (time_listeners e)).
  { rewrite Hs. simpl. apply insert_insert_eq. }
  split; [unfold AddTimeListener, set_time_listeners; simpl; f_equal; apply insert_insert_eq|].
  split; [simpl; apply lookup_insert_eq|].
  split; [intros delay' Hne; simpl; by rewrite !lookup_insert_ne|].
  destruct (HandleTime_calls X ev s f i Hf Hi) as (s' & d & Hrun & Hd & _ & Hcount).
  { rewrite Hm. by apply map_Forall_insert_2. }
  { done. }
  exists s', d. split; [done|]. split; [done|]. split.
  - intros l. rewrite Hcount, Hm, lookup_insert_eq. f_equal. f_equal.
    destruct (decide (l = L2)) as [->|Hne].
    + by rewrite !bool_decide_eq_true_2.
    + rewrite !bool_decide_eq_false_2; [done | done | congruence].
  - intros delay' l Hne. by rewrite Hcount, Hm, lookup_insert_ne.
Qed.

Lemma AddTimeListener_same_delay_replaces_witness :
  exists s' d,
    HandleTime demo_app (time_event demo_engine_at_120)
      (AddTimeListener 9%nat 1000 (AddTimeListener 4%nat 1000 demo_engine_at_120)) = Ok s' /\
    log s' = [] ++ d /\
    occurrences (OTimeListener 1000 9%nat) d = 1%nat /\
    occurrences (OTimeListener 1000 4%nat) d = 0%nat /\
    occurrences (OTimeListener 1000 6%nat) d = 0%nat /\
    occurrences (OTimeListener 500 8%nat) d = 1%nat.
Proof.
  destruct (AddTimeListener_same_delay_replaces demo_app (time_event demo_engine_at_120)
              demo_engine_at_120
              (AddTimeListener 9%nat 1000 (AddTimeListener 4%nat 1000 demo_engine_at_120))
              30 120 4%nat 9%nat 1000)
    as (_ & _ & _ & s' & d & A & B & C & D);
    [exact demo_timers_ok | exact demo_app_timers_untouched
    | unfold INT_MIN, INT_MAX; lia | discriminate | vm_compute; eauto
    | reflexivity | reflexivity | reflexivity |].
  exists s', d. split; [exact A|]. split; [exact B|].
  split; [exact (C 9%nat)|]. split; [exact (C 4%nat)|]. split; [exact (C 6%nat)|].
  exact (D 500 8%nat ltac:(lia)).
Defined.

(** *** The collision pass *)

Lemma collision_calls_cmd d : Forall cmd_obs d -> collision_calls d = [].
Proof. apply omap_none. by intros []. Qed.

Lemma sprite_calls_cmd d : Forall cmd_obs d -> sprite_calls d = [].
Proof. apply omap_none. by intros []. Qed.

Lemma occurrences_collision_calls l a b d :
  occurrences (OCollision l a b) (collision_calls d) = occurrences (OCollision l a b) d.
Proof.
  unfold occurrences, collision_calls.
  induction d as [|o d IH]; [done|].
  change (omap ?f (o :: d)) with (match f o with Some y => y :: omap f d | None => omap f d end).
  destruct o; cbn [count_occ]; rewrite <- ?IH; try done;
    destruct (Obs_eq_dec _ _) as [Heq|Hne]; done.
Qed.

Lemma collide_calls X l a b e :
  current_collision_listener e = l -> l <> nullptr ->
  is_Some (sprite_heap e !! a) -> is_Some (sprite_heap e !! b) ->
  collision_listener_quiet X l ->
  exists e' d, collide X a b e = Ok e' /\ collision_view e' = collision_view e /\
    log e' = log e ++ (if bool_decide (a ≠ b) && overlap_now X e a b
                       then [OCollision l a b] else []) ++ d /\
    Forall cmd_obs d.
Proof.
  intros Hl Hnn [ra Ha] [rb Hb] Hq. unfold collide, Sprite_Contains, overlap_now.
  rewrite Ha, Hb.
  destruct (decide (a = b)) as [Hab|Hab].
  - rewrite bool_decide_eq_false_2 by tauto. exists e, []. by rewrite !app_nil_r.
  - rewrite bool_decide_eq_true_2 by done. simpl.
    destruct (rect_contains X ra rb).
    + rewrite Hl. destruct (decide (l = nullptr)); [done|].
      destruct (Hq a b (record (OCollision l a b) e)) as (e' & Hrun & Hview).
      destruct (evo_log _ _ _ (run_cmds_evolves _ _ _ Hrun)) as (d & Hd & HP & _).
      exists e', d. split; [done|]. split; [done|]. split; [|done].
      rewrite Hd. simpl. by rewrite <- app_assoc.
    + exists e, []. by rewrite !app_nil_r.
Qed.

Lemma list_bind_snoc {A B} (f : A -> list B) (pre : list A) (x : A) :
  (pre ++ [x]) ≫= f = (pre ≫= f) ++ f x.
Proof. rewrite bind_app. simpl. by rewrite app_nil_r. Qed.

Lemma DetectCollision_inner_calls X l p L a e0 e :
  collision_view e = collision_view e0 ->
  current_level e0 = Some p -> level_heap e0 !! p = Some L ->
  current_collision_listener e0 = l -> l <> nullptr ->
  (forall s, s ∈ sprites L -> is_Some (sprite_heap e0 !! s)) ->
  a ∈ sprites L ->
  collision_listener_quiet X l ->
  exists e' d, DetectCollision_inner X a e = Ok e' /\
    collision_view e' = collision_view e0 /\ log e' = log e ++ d /\
    collision_calls d =
      (b ← sprites L; if bool_decide (a ≠ b) && overlap_now X e0 a b
                      then [OCollision l a b] else []).
Proof.
  intros Hv Hp HL Hl Hnn Halive Ha Hq.
  injection Hv as Hv1 Hv2 Hv3 Hv4.
  unfold DetectCollision_inner, deref_current_level, Level_GetSprites.
  rewrite Hv1, Hp. simpl. rewrite Hv2, HL. simpl.
  destruct (range_for_total
    (fun pre e1 => collision_view e1 = collision_view e0 /\
       exists d, log e1 = log e ++ d /\
         collision_calls d =
           (b ← pre; if bool_decide (a ≠ b) && overlap_now X e0 a b
                     then [OCollision l a b] else []))
    temporary_intact (collide X a) (sprites L) e) as (e' & Hrun & Hview & d & Hd & Hc);
    [| | by exists e', d].
  - split; [by unfold collision_view; rewrite Hv1, Hv2, Hv3, Hv4|].
    exists []. by rewrite app_nil_r.
  - intros pre b post e1 Hsplit (Hv' & d & Hd & Hc).
    pose proof Hv' as Hv''. injection Hv'' as Hw1 Hw2 Hw3 Hw4.
    assert (Hb : b ∈ sprites L) by (rewrite Hsplit; set_solver).
    destruct (collide_calls X l a b e1) as (e2 & dc & Hrun & Hview & Hlog & HP);
      [congruence | done | rewrite Hw3; by apply Halive | rewrite Hw3; by apply Halive
      | done |].
    exists e2. split; [done|]. split; [done|]. split; [by rewrite Hview|].
    eexists. split; [by rewrite Hlog, Hd, <- app_assoc|].
    unfold collision_calls in *. rewrite !omap_app, Hc, list_bind_snoc.
    fold (collision_calls dc). rewrite (collision_calls_cmd dc), app_nil_r by done.
    f_equal. unfold overlap_now. rewrite Hw3.
    by destruct (bool_decide (a ≠ b) && match sprite_heap e0 !! a with
                                        | Some r => _ | None => false end).
Qed.

(** What [DetectCollision] calls. *)
Lemma DetectCollision_calls X l p L e :
  current_level e = Some p -> level_heap e !! p = Some L ->
  current_collision_listener e = l -> l <> nullptr ->
  (forall s, s ∈ sprites L -> is_Some (sprite_heap e !! s)) ->
  collision_listener_quiet X l ->
  exists e' d, DetectCollision X e = Ok e' /\
    collision_view e' = collision_view e /\ log e' = log e ++ d /\
    collision_calls d = expected_collisions l (overlap_now X e) (sprites L).
Proof.
  intros Hp HL Hl Hnn Halive Hq.
  unfold DetectCollision, deref_current_level, Level_GetSprites.
  rewrite Hp. simpl. rewrite HL. simpl.
  destruct (range_for_total
    (fun pre e1 => collision_view e1 = collision_view e /\
       exists d, log e1 = log e ++ d /\
         collision_calls d =
           (a ← pre; b ← sprites L; if bool_decide (a ≠ b) && overlap_now X e a b
                                    then [OCollision l a b] else []))
    temporary_intact (DetectCollision_inner X) (sprites L) e)
    as (e' & Hrun & Hview & d & Hd & Hc); [| | by exists e', d].
  - split; [done|]. exists []. by rewrite app_nil_r.
  - intros pre a post e1 Hsplit (Hv' & d & Hd & Hc).
    assert (Ha : a ∈ sprites L) by (rewrite Hsplit; set_solver).
    destruct (DetectCollision_inner_calls X l p L a e e1) as (e2 & di & Hrun & Hview & Hlog & Hci);
      try done.
    exists e2. split; [done|]. split; [done|]. split; [done|].
    eexists. split; [by rewrite Hlog, Hd, <- app_assoc|].
    unfold collision_calls in *. by rewrite omap_app, Hc, Hci, list_bind_snoc.
Qed.

Lemma elem_of_expected_collisions l hit v o :
  o ∈ expected_collisions l hit v <->
  exists a b, o = OCollision l a b /\ a ∈ v /\ b ∈ v /\ a <> b /\ hit a b = true.
Proof.
  unfold expected_collisions. rewrite list_elem_of_bind. split.
  - intros (a & Hin & Ha). apply list_elem_of_bind in Hin as (b & Hin & Hb).
    destruct (bool_decide (a ≠ b)) eqn:Hab; [|by apply elem_of_nil in Hin].
    destruct (hit a b) eqn:Hhit; [|by apply elem_of_nil in Hin].
    apply list_elem_of_singleton in Hin. apply bool_decide_eq_true in Hab.
    by exists a, b.
  - intros (a & b & -> & Ha & Hb & Hab & Hhit). exists a. split; [|done].
    apply list_elem_of_bind. exists b. split; [|done].
    rewrite bool_decide_eq_true_2, Hhit by done. by apply list_elem_of_singleton.
Qed.

Lemma NoDup_expected_collisions l hit v : NoDup v -> NoDup (expected_collisions l hit v).
Proof.
  intros Hv. unfold expected_collisions. apply NoDup_bind; [| |done].
  - intros a1 a2 o _ _ H1 H2.
    apply list_elem_of_bind in H1 as (b1 & H1 & _).
    apply list_elem_of_bind in H2 as (b2 & H2 & _).
    destruct (_ && _); [|by apply elem_of_nil in H1].
    destruct (_ && _); [|by apply elem_of_nil in H2].
    apply list_elem_of_singleton in H1, H2. congruence.
  - intros a _. apply NoDup_bind; [| |done].
    + intros b1 b2 o _ _ H1 H2.
      destruct (_ && _); [|by apply elem_of_nil in H1].
      destruct (_ && _); [|by apply elem_of_nil in H2].
      apply list_elem_of_singleton in H1, H2. congruence.
    + intros b _. destruct (_ && _); [apply NoDup_singleton | apply NoDup_nil_2].
Qed.

Lemma occurrences_NoDup o d :
  NoDup d -> occurrences o d = if bool_decide (o ∈ d) then 1%nat else 0%nat.
Proof.
  intros Hd. unfold occurrences.
  pose proof (proj1 (NoDup_count_occ Obs_eq_dec d) (proj1 (NoDup_ListNoDup d) Hd) o) as Hle.
  case_bool_decide as Hin.
  - apply list_elem_of_In in Hin. apply (count_occ_In Obs_eq_dec) in Hin. lia.
  - apply count_occ_not_In. by rewrite <- list_elem_of_In.
Qed.

(** C1.  In one collision pass with a listener registered, in a level that
    holds each of its sprites once, the listener is called for the ordered
    pairs of distinct sprites whose boundaries pass the test, in the order
    of the two loops: once for each such pair, [(A, B)] and [(B, A)] each on
    its own, and never for another pair. *)
Theorem DetectCollision_reports_each_overlapping_pair_once X l p L e :
  current_level e = Some p ->
  level_heap e !! p = Some L ->
  NoDup (sprites L) ->
  (forall s, s ∈ sprites L -> is_Some (sprite_heap e !! s)) ->
  current_collision_listener e = l -> l <> nullptr ->
  collision_listener_quiet X l ->
  exists e' d,
    DetectCollision X e = Ok e' /\ log e' = log e ++ d /\
    collision_calls d = expected_collisions l (overlap_now X e) (sprites L) /\
    forall l' a b,
      occurrences (OCollision l' a b) d =
      if bool_decide (l' = l /\ a ∈ sprites L /\ b ∈ sprites L /\ a <> b)
         && overlap_now X e a b
      then 1%nat else 0%nat.
Proof.
  intros Hp HL Hnd Halive Hl Hnn Hq.
  destruct (DetectCollision_calls X l p L e Hp HL Hl Hnn Halive Hq)
    as (e' & d & Hrun & _ & Hd & Hc).
  exists e', d. split; [done|]. split; [done|]. split; [done|].
  intros l' a b. rewrite <- occurrences_collision_calls, Hc.
  rewrite occurrences_NoDup by by apply NoDup_expected_collisions.
  destruct (overlap_now X e a b) eqn:Hhit.
  - rewrite andb_true_r. destruct (decide (l' = l /\ a ∈ sprites L /\ b ∈ sprites L /\ a <> b))
      as [(-> & Ha & Hb & Hab)|Hno].
    + rewrite !bool_decide_eq_true_2; [done | done |].
      apply elem_of_expected_collisions. by exists a, b.
    + rewrite !bool_decide_eq_false_2; [done | done |].
      intros Hin. apply elem_of_expected_collisions in Hin
        as (a0 & b0 & [= -> -> ->] & Ha & Hb & Hab & _). by apply Hno.
  - rewrite andb_false_r. rewrite bool_decide_eq_false_2; [done|].
    intros Hin. apply elem_of_expected_collisions in Hin
      as (a0 & b0 & [= -> -> ->] & _ & _ & _ & Hh). congruence.
Qed.

Lemma demo_app_collision_listener_quiet l : collision_listener_quiet demo_app l.
Proof. intros a b e. by exists e. Qed.

Lemma DetectCollision_reports_each_overlapping_pair_once_witness :
  exists e' d,
    DetectCollision demo_app demo_engine = Ok e' /\ log e' = log demo_engine ++ d /\
    collision_calls d = [OCollision 7%nat 10%nat 11%nat; OCollision 7%nat 11%nat 10%nat] /\
    occurrences (OCollision 7%nat 10%nat 11%nat) d = 1%nat /\
    occurrences (OCollision 7%nat 11%nat 10%nat) d = 1%nat /\
    occurrences (OCollision 7%nat 10%nat 12%nat) d = 0%nat.
Proof.
  destruct (DetectCollision_reports_each_overlapping_pair_once demo_app 7%nat 1%nat
              (mkLevel [10%nat; 11%nat; 12%nat] true true 0) demo_engine)
    as (e' & d & A & B & C & D);
    [reflexivity | reflexivity
    | apply (bool_decide_unpack _); vm_compute; exact I
    | intros s Hs; apply (bool_decide_unpack _); revert s Hs;
      apply (Forall_forall (fun s => bool_decide (is_Some (sprite_heap demo_engine !! s))));
      repeat constructor
    | reflexivity | discriminate | apply demo_app_collision_listener_quiet |].
  exists e', d. split; [exact A|]. split; [exact B|]. split; [exact C|].
  split; [exact (D 7%nat 10%nat 11%nat)|]. split; [exact (D 7%nat 11%nat 10%nat)|].
  exact (D 7%nat 10%nat 12%nat).
Defined.

(** *** Propagation to the sprites *)

Lemma sprite_calls_route d : Forall route_obs d -> sprite_calls d = [].
Proof. apply omap_none. by intros []. Qed.

Lemma PropagateEventToSprites_calls X p L ev e :
  level_heap e !! p = Some L ->
  (forall s, s ∈ sprites L -> is_Some (sprite_heap e !! s)) ->
  sprite_listeners_quiet X ev ->
  exists e' d, Level_PropagateEventToSprites X p ev e = Ok e' /\
    log e' = log e ++ d /\
    sprite_calls d = (fun s => OSpriteEvent s ev) <$> sprites L /\
    level_heap e' = level_heap e /\ sprite_heap e' = sprite_heap e.
Proof.
  intros HL Halive Hq. unfold Level_PropagateEventToSprites. rewrite HL.
  destruct (range_for_total
    (fun pre e1 => level_heap e1 = level_heap e /\ sprite_heap e1 = sprite_heap e /\
       exists d, log e1 = log e ++ d /\
         sprite_calls d = (fun s => OSpriteEvent s ev) <$> pre)
    (sprites_intact p (sprites_version L)) (fun s => Sprite_DelegateEvent X s ev)
    (sprites L) e) as (e' & Hrun & Hl & Hs & d & Hd & Hc); [| | by exists e', d].
  - split; [done|]. split; [done|]. exists []. by rewrite app_nil_r.
  - intros pre s post e1 Hsplit (Hl1 & Hs1 & d & Hd & Hc).
    assert (Hin : s ∈ sprites L) by (rewrite Hsplit; set_solver).
    unfold Sprite_DelegateEvent. rewrite Hs1.
    destruct (Halive s Hin) as [r ->].
    destruct (Hq s (record (OSpriteEvent s ev) e1)) as (e2 & Hrun & Hl2 & Hs2).
    destruct (evo_log _ _ _ (run_cmds_evolves _ _ _ Hrun)) as (dc & Hdc & HP & _).
    exists e2. split; [done|]. simpl in Hl2, Hs2. split.
    { unfold sprites_intact. rewrite Hl2, Hl1, HL. by apply bool_decide_eq_true_2. }
    split; [congruence|]. split; [congruence|].
    eexists. split; [rewrite Hdc; simpl; by rewrite Hd, <- !app_assoc|].
    unfold sprite_calls in *. rewrite !omap_app, Hc, fmap_app.
    fold (sprite_calls dc). by rewrite (sprite_calls_cmd dc), app_nil_r.
Qed.

(** C7.  Whatever the type of an event and whichever branch routed it,
    [DelegateEvent] then hands it to the active level, which hands it to
    each of its sprites, in order; nothing reaches a sprite before the
    routing is over. *)
Theorem DelegateEvent_propagates_to_every_sprite X ev e e1 p L :
  route_event X ev e = Ok e1 ->
  current_level e1 = Some p ->
  level_heap e1 !! p = Some L ->
  (forall s, s ∈ sprites L -> is_Some (sprite_heap e1 !! s)) ->
  sprite_listeners_quiet X ev ->
  exists e' d_route d_sprites,
    DelegateEvent X ev e = Ok e' /\
    log e1 = log e ++ d_route /\ log e' = log e1 ++ d_sprites /\
    sprite_calls d_route = [] /\
    sprite_calls d_sprites = (fun s => OSpriteEvent s ev) <$> sprites L.
Proof.
  intros Hroute Hp HL Halive Hq.
  destruct (PropagateEventToSprites_calls X p L ev e1 HL Halive Hq)
    as (e' & d & Hrun & Hd & Hc & _).
  destruct (evo_log _ _ _ (route_event_evolves _ _ _ _ Hroute)) as (d0 & Hd0 & HP0 & _).
  exists e', d0, d. unfold DelegateEvent. rewrite Hroute. simpl.
  unfold deref_current_level. rewrite Hp. simpl.
  split; [done|]. split; [done|]. split; [done|]. split; [by apply sprite_calls_route | done].
Qed.

Lemma demo_app_sprite_listeners_quiet ev : sprite_listeners_quiet demo_app ev.
Proof. intros s e. by exists e. Qed.

Lemma DelegateEvent_propagates_to_every_sprite_witness :
  exists e' d_sprites,
    DelegateEvent demo_app escape_pressed demo_engine = Ok e' /\
    log e' = log after_escape_routed ++ d_sprites /\
    sprite_calls d_sprites =
      [OSpriteEvent 10%nat escape_pressed; OSpriteEvent 11%nat escape_pressed;
       OSpriteEvent 12%nat escape_pressed].
Proof.
  destruct (DelegateEvent_propagates_to_every_sprite demo_app escape_pressed demo_engine
              after_escape_routed 1%nat (mkLevel [10%nat; 11%nat; 12%nat] true true 0))
    as (e' & d0 & d & A & _ & B & _ & C);
    [vm_compute; reflexivity | reflexivity | reflexivity
    | intros s Hs; apply (bool_decide_unpack _); revert s Hs;
      apply (Forall_forall
               (fun s => bool_decide (is_Some (sprite_heap after_escape_routed !! s))));
      repeat constructor
    | apply demo_app_sprite_listeners_quiet |].
  exists e', d. split; [exact A|]. split; [exact B | exact C].
Defined.

(** C8.  The claim fails on the code: [PropagateEventToSprites] walks the
    member [sprites] itself, so a listener of sprite 10 that removes sprite
    12 from the level erases from the vector under the traversal; going on
    with the invalidated iterators is undefined. *)
Theorem PropagateEventToSprites_removal_is_undefined :
  Level_PropagateEventToSprites remover_app 1%nat escape_pressed demo_engine
  = UB InvalidatedIterator.
Proof. vm_compute. reflexivity. Qed.

(** *** The collision pass runs over snapshots *)

Lemma range_for_temporary {A} (body : A -> Engine -> Result Engine) v e :
  range_for temporary_intact body v e = over_snapshot body v e.
Proof.
  revert e. induction v as [|x v IH]; intros e; simpl; [done|].
  destruct (body x e) as [e1|f]; simpl; [apply IH | done].
Qed.

Lemma over_snapshot_ext {A} (f g : A -> Engine -> Result Engine) v e :
  (forall x e, f x e = g x e) -> over_snapshot f v e = over_snapshot g v e.
Proof.
  intros Hfg. revert e. induction v as [|x v IH]; intros e; simpl; [done|].
  rewrite Hfg. destruct (g x e) as [e1|?]; simpl; [apply IH | done].
Qed.

Lemma DetectCollision_over_snapshots X e :
  DetectCollision X e = collision_pass_over_snapshots X e.
Proof.
  unfold DetectCollision, collision_pass_over_snapshots.
  destruct (deref_current_level e) as [p|?]; simpl; [|done].
  destruct (Level_GetSprites p e) as [v|?]; simpl; [|done].
  rewrite range_for_temporary. apply over_snapshot_ext. intros a e1.
  unfold DetectCollision_inner.
  destruct (deref_current_level e1) as [p1|?]; simpl; [|done].
  destruct (Level_GetSprites p1 e1) as [v1|?]; simpl; [|done].
  apply range_for_temporary.
Qed.

Lemma exec_cmd_iterators c e : exec_cmd c e <> UB InvalidatedIterator.
Proof.
  destruct c; simpl; try done;
    unfold Level_AddSprite, Level_RemoveSprite, Level_SetLoaded, Level_SetWindow,
           Sprite_SetX, Sprite_SetY; repeat case_match; done.
Qed.

Lemma run_cmds_iterators cs e : run_cmds cs e <> UB InvalidatedIterator.
Proof.
  revert e. induction cs as [|c cs IH]; intros e; simpl; [done|].
  destruct (exec_cmd c e) as [e1|f] eqn:E; simpl; [apply IH|].
  intros [= ->]. by apply (exec_cmd_iterators c e).
Qed.

Lemma collide_iterators X a b e : collide X a b e <> UB InvalidatedIterator.
Proof.
  unfold collide, Sprite_Contains.
  destruct (decide (a = b)); [done|].
  destruct (sprite_heap e !! a); [|done]. destruct (sprite_heap e !! b); [|done].
  destruct (rect_contains X r r0); [|done].
  destruct (decide (current_collision_listener e = nullptr)); [done|].
  apply run_cmds_iterators.
Qed.

Lemma over_snapshot_iterators {A} (body : A -> Engine -> Result Engine) v e :
  (forall x e, body x e <> UB InvalidatedIterator) ->
  over_snapshot body v e <> UB InvalidatedIterator.
Proof.
  intros Hb. revert e. induction v as [|x v IH]; intros e; simpl; [done|].
  destruct (body x e) as [e1|f] eqn:E; simpl; [apply IH|].
  intros [= ->]. by apply (Hb x e).
Qed.

Lemma bind_iterators {A} (r : Result A) (k : A -> Result Engine) :
  r <> UB InvalidatedIterator -> (forall a, k a <> UB InvalidatedIterator) ->
  (r ≫= k) <> UB InvalidatedIterator.
Proof.
  intros Hr Hk. destruct r as [a|f]; simpl; [apply Hk|].
  intros [= ->]. by apply Hr.
Qed.

Lemma deref_current_level_iterators e : deref_current_level e <> UB InvalidatedIterator.
Proof. unfold deref_current_level. by destruct (current_level e). Qed.

Lemma Level_GetSprites_iterators p e : Level_GetSprites p e <> UB InvalidatedIterator.
Proof. unfold Level_GetSprites. by destruct (level_heap e !! p). Qed.

Lemma collide_evolves_first X (P : Obs -> Prop) a b e e' :
  (forall o, cmd_obs o -> P o) -> (forall l, P (OCollision l a b)) ->
  collide X a b e = Ok e' -> evolves P e e'.
Proof.
  intros Hc Hp. unfold collide.
  destruct (decide (a = b)); [intros [= <-]; apply evolves_refl|].
  destruct (Sprite_Contains X a b e) as [[|]|]; [| |done].
  - destruct (decide (current_collision_listener e = nullptr)).
    + intros [= <-]; apply evolves_refl.
    + intros H. eapply evolves_trans;
        [by apply (evolves_record _ (OCollision (current_collision_listener e) a b))|].
      eapply evolves_mono; [apply Hc | by eapply run_cmds_evolves].
  - intros [= <-]; apply evolves_refl.
Qed.

Lemma DetectCollision_first_components X p L e e' d :
  current_level e = Some p -> level_heap e !! p = Some L ->
  DetectCollision X e = Ok e' -> log e' = log e ++ d ->
  forall l a b, OCollision l a b ∈ d -> a ∈ sprites L.
Proof.
  intros Hp HL Hrun Hd.
  unfold DetectCollision, deref_current_level, Level_GetSprites in Hrun.
  rewrite Hp in Hrun. simpl in Hrun. rewrite HL in Hrun. simpl in Hrun.
  set (P := fun o => cmd_obs o \/ exists l a b, o = OCollision l a b /\ a ∈ sprites L).
  apply (range_for_partial (fun _ e1 => evolves P e e1)) in Hrun.
  - destruct (evo_log _ _ _ Hrun) as (d' & Hd' & HP & _).
    rewrite Hd' in Hd. apply app_inv_head in Hd. subst d'.
    intros l a b Hin. rewrite Forall_forall in HP. apply HP in Hin as [Hc|Hx]; [done|].
    by destruct Hx as (l0 & a0 & b0 & [= -> -> ->] & Ha).
  - apply evolves_refl.
  - intros pre a post e0 e1 Hsplit Hev Hinner _.
    eapply evolves_trans; [done|].
    unfold DetectCollision_inner in Hinner.
    apply bind_Ok in Hinner as (p1 & _ & Hinner). apply bind_Ok in Hinner as (v1 & _ & Hinner).
    revert Hinner. apply range_for_evolves. intros b e2 e3.
    apply collide_evolves_first; [by left|].
    intros l. right. exists l, a, b. split; [done|]. rewrite Hsplit. set_solver.
Qed.

(** C10.  [GetSprites] hands out a copy, so each of the two traversals of
    the collision pass runs over the sequence as it was when the traversal
    began: the pass is the pass over snapshots of the specification,
    whatever the listener does; it never goes on with invalidated
    iterators; every pair it reports has its first sprite in the sequence
    as it was when the pass began.  In the example, the listener adds
    sprite 13 while the pair (10, 11) is reported: the traversals in
    progress do not see it (nothing is reported with 13 first, nor the pair
    (10, 13)), the inner traversals begun afterwards do ((11, 13) and
    (12, 13) are tested, and (11, 13) is reported). *)
Theorem DetectCollision_iterates_over_snapshots :
  (forall X e, DetectCollision X e = collision_pass_over_snapshots X e) /\
  (forall X e, DetectCollision X e <> UB InvalidatedIterator) /\
  (forall X p L e e' d,
     current_level e = Some p -> level_heap e !! p = Some L ->
     DetectCollision X e = Ok e' -> log e' = log e ++ d ->
     forall l a b, OCollision l a b ∈ d -> a ∈ sprites L) /\
  (exists e', DetectCollision adder_app adder_engine = Ok e' /\
     collision_calls (log e') =
       [OCollision 7%nat 10%nat 11%nat; OCollision 7%nat 11%nat 10%nat;
        OCollision 7%nat 11%nat 13%nat] /\
     Level_GetSprites 1%nat e' = Ok [10%nat; 11%nat; 12%nat; 13%nat]).
Proof.
  split; [apply DetectCollision_over_snapshots|]. split; [|split].
  - intros X e. rewrite DetectCollision_over_snapshots.
    unfold collision_pass_over_snapshots.
    apply bind_iterators; [apply deref_current_level_iterators|]. intros p.
    apply bind_iterators; [apply Level_GetSprites_iterators|]. intros v.
    apply over_snapshot_iterators. intros a e1.
    apply bind_iterators; [apply deref_current_level_iterators|]. intros p1.
    apply bind_iterators; [apply Level_GetSprites_iterators|]. intros v1.
    apply over_snapshot_iterators. apply collide_iterators.
  - apply DetectCollision_first_components.
  - eexists. split; [vm_compute; reflexivity|]. split; vm_compute; reflexivity.
Qed.

(** * Further properties *)

(** *** The main loop goes on until [Quit] *)

Lemma to_Uint32_plus a n : to_Uint32 (to_Uint32 a + n) = to_Uint32 (a + n).
Proof. unfold to_Uint32. by rewrite Zplus_mod_idemp_l. Qed.

Lemma iteration_log X f e e' : iteration X f e = Ok e' -> exists d, log e' = log e ++ d.
Proof.
  intros H. apply iteration_shape in H as (d1 & d2 & d3 & Hlog & _). eexists. exact Hlog.
Qed.

Lemma iteration_keeps_running X f e e' d :
  iteration X f e = Ok e' -> log e' = log e ++ d -> OQuit ∉ d ->
  is_running e' = is_running e /\ frame_counter e' = to_Uint32 (frame_counter e + 1).
Proof.
  intros H Hd Hno. apply iteration_shape in H
    as (d1 & d2 & d3 & Hlog & _ & _ & _ & _ & _ & Hfc & _ & _ & Hk & _).
  rewrite Hlog in Hd. apply app_inv_head in Hd. subst d. split; [|done].
  apply Hk. intros Hin. apply Hno. rewrite !elem_of_app. rewrite elem_of_app in Hin. tauto.
Qed.

(** X1.  As long as [Quit] is not called, every turn of the main loop is
    run: after [n] turns the engine is still running and the frame counter
    has advanced by [n] (modulo [2 ^ 32]).  So a run that has stopped has
    called [Quit]. *)
Theorem Run_loop_goes_on_until_Quit X frames e e' d :
  is_running e = true ->
  0 <= frame_counter e < 2 ^ 32 ->
  Run_loop X frames e = Ok e' ->
  log e' = log e ++ d ->
  OQuit ∉ d ->
  is_running e' = true /\
  frame_counter e' = to_Uint32 (frame_counter e + Z.of_nat (length frames)).
Proof.
  revert e d. induction frames as [|f rest IH]; intros e d Hrun Hfc H Hd Hno;
    cbn [Run_loop] in H.
  - injection H as <-. split; [done|]. simpl. rewrite Z.add_0_r.
    unfold to_Uint32. by rewrite Z.mod_small.
  - rewrite Hrun in H. apply bind_Ok in H as (e1 & H1 & H).
    destruct (iteration_log X f e e1 H1) as (d1 & Hd1).
    assert (Hd2 : exists d2, log e' = log e1 ++ d2 /\ d = d1 ++ d2).
    { clear IH. revert e1 H Hd1 H1. clear Hrun Hfc. intros e1 H Hd1 _.
      assert (G : forall fs a b, Run_loop X fs a = Ok b -> exists t, log b = log a ++ t).
      { induction fs as [|g fs IHf]; intros a b Hab; cbn [Run_loop] in Hab.
        - injection Hab as <-. exists []. by rewrite app_nil_r.
        - destruct (is_running a).
          + apply bind_Ok in Hab as (a1 & Ha1 & Hab).
            destruct (iteration_log X g a a1 Ha1) as (t1 & Ht1).
            destruct (IHf a1 b Hab) as (t2 & Ht2).
            exists (t1 ++ t2). by rewrite Ht2, Ht1, app_assoc.
          + injection Hab as <-. exists []. by rewrite app_nil_r. }
      destruct (G rest e1 e' H) as (d2 & Hd2). exists d2. split; [done|].
      rewrite Hd2, Hd1, <- app_assoc in Hd. by apply app_inv_head in Hd. }
    destruct Hd2 as (d2 & Hd2 & ->).
    destruct (iteration_keeps_running X f e e1 d1 H1 Hd1) as [Hr1 Hc1].
    { intros Hin. apply Hno, elem_of_app. by left. }
    destruct (IH e1 d2) as [Hr' Hc']; try done.
    + congruence.
    + rewrite Hc1. unfold to_Uint32. apply Z.mod_pos_bound. lia.
    + intros Hin. apply Hno, elem_of_app. by right.
    + split; [done|]. rewrite Hc', Hc1, to_Uint32_plus. apply (f_equal to_Uint32).
      cbn [length]. lia.
Qed.

Lemma Run_loop_goes_on_until_Quit_witness :
  is_running after_quiet = true /\ frame_counter after_quiet = 1.
Proof.
  apply (Run_loop_goes_on_until_Quit demo_app [quiet_frame] demo_engine after_quiet
           (log after_quiet));
    [reflexivity | split; [by vm_compute | reflexivity] | vm_compute; reflexivity | reflexivity
    | apply (bool_decide_unpack _); vm_compute; exact I].
Defined.

(** *** The platform's quit event *)




(** *** Event listeners *)

Lemma HandleEvent_entry_calls X ev mouse e k l :
  l <> nullptr -> event_listeners_untouched X ->
  exists e' d, HandleEvent_entry X ev mouse k l e = Ok e' /\
    event_listeners e' = event_listeners e /\
    log e' = log e ++ (if event_matches ev mouse k then [OEventListener k l] else []) ++ d /\
    Forall cmd_obs d.
Proof.
  intros Hl Hq. unfold HandleEvent_entry, event_matches.
  assert (Call : exists e' d,
            call_listener X l (record (OEventListener k l) e) = Ok e' /\
            event_listeners e' = event_listeners e /\
            log e' = log e ++ [OEventListener k l] ++ d /\ Forall cmd_obs d).
  { unfold call_listener. destruct (decide (l = nullptr)); [done|].
    destruct (Hq l (record (OEventListener k l) e)) as (e' & Hrun & Hsame).
    destruct (evo_log _ _ _ (run_cmds_evolves _ _ _ Hrun)) as (d & Hd & HP & _).
    exists e', d. split; [done|]. split; [done|]. split; [|done].
    rewrite Hd. simpl. by rewrite <- app_assoc. }
  assert (Skip : exists e' d, Ok e = Ok e' /\ event_listeners e' = event_listeners e /\
            log e' = log e ++ [] ++ d /\ Forall cmd_obs d).
  { exists e, []. by rewrite !app_nil_r. }
  destruct mouse; simpl.
  - destruct (bool_decide (to_Uint32 k = ev_type ev)); [exact Call | exact Skip].
  - destruct (bool_decide (k = ev_sym ev)); [exact Call | exact Skip].
Qed.

Lemma key_indicator_step (m : gmap Z FnPtr) (c k : Z) (l : FnPtr) (fire : Z -> bool)
    (k' : Z) (l' : FnPtr) :
  c < k -> m !! k = Some l ->
  (forall k0 l0, m !! k0 = Some l0 -> c < k0 -> k <= k0) ->
  Nat.add (if bool_decide (k' <= c /\ m !! k' = Some l') && fire k' then 1%nat else 0%nat)
          (if fire k
           then if bool_decide (OEventListener k l = OEventListener k' l') then 1%nat else 0%nat
           else 0%nat)
  = if bool_decide (k' <= k /\ m !! k' = Some l') && fire k' then 1%nat else 0%nat.
Proof.
  intros Hck Hmk Hmin.
  destruct (decide (k' <= c)) as [Hle|Hgt].
  - rewrite (bool_decide_eq_false_2 (OEventListener k l = OEventListener k' l'))
      by (intros [= -> ->]; lia).
    destruct (decide (m !! k' = Some l')) as [Hm|Hm].
    + rewrite !bool_decide_eq_true_2 by (split; [lia | done]).
      destruct (fire k'), (fire k); simpl; lia.
    + rewrite !bool_decide_eq_false_2 by tauto. destruct (fire k); simpl; lia.
  - rewrite (bool_decide_eq_false_2 (k' <= c /\ _)) by tauto. simpl.
    destruct (decide (k' = k)) as [->|Hne].
    + destruct (decide (l' = l)) as [->|Hl].
      * rewrite !bool_decide_eq_true_2 by (done || (split; [lia | done])).
        by destruct (fire k).
      * rewrite (bool_decide_eq_false_2 (OEventListener k l = OEventListener k l'))
          by (intros [= ->]; done).
        rewrite bool_decide_eq_false_2 by (intros [_ Hx]; congruence).
        by destruct (fire k).
    + rewrite (bool_decide_eq_false_2 (OEventListener k l = OEventListener k' l'))
        by (intros [= -> ->]; done).
      rewrite bool_decide_eq_false_2.
      * by destruct (fire k).
      * intros [Hle Hm]. specialize (Hmin k' l' Hm). lia.
Qed.

(** What [HandleEvent] calls. *)
Lemma HandleEvent_calls X ev mouse e :
  listeners_ok (event_listeners e) -> event_listeners_untouched X ->
  exists e' d, HandleEvent X ev mouse e = Ok e' /\ log e' = log e ++ d /\
    forall key l,
      occurrences (OEventListener key l) d =
      if bool_decide (event_listeners e !! key = Some l) && event_matches ev mouse key
      then 1%nat else 0%nat.
Proof.
  intros Hok Hq. set (m := event_listeners e).
  destruct (map_from_total
    (fun c e1 => event_listeners e1 = m /\
       exists d, log e1 = log e ++ d /\
         forall k l, occurrences (OEventListener k l) d =
           if bool_decide (k <= c /\ m !! k = Some l) && event_matches ev mouse k
           then 1%nat else 0%nat)
    event_listeners (HandleEvent_entry X ev mouse) (INT_MIN - 1) e)
    as (e' & c' & Hrun & _ & (Hm' & d & Hd & Hcount) & Hend).
  - done.
  - split; [done|]. exists []. rewrite app_nil_r. split; [done|].
    intros k l. rewrite bool_decide_eq_false_2; [done|].
    intros [Hle Hk]. apply Hok in Hk as [Hr _]. lia.
  - intros c e1 k l Hc (Hm1 & d & Hd & Hcount) Hnext.
    rewrite Hm1 in Hnext. apply next_entry_Some in Hnext as (Hmk & Hck & Hmin).
    pose proof (Hok k l Hmk) as (_ & Hl).
    destruct (HandleEvent_entry_calls X ev mouse e1 k l Hl Hq)
      as (e2 & dc & Hrun & Hm2 & Hd2 & Hdc).
    exists e2. split; [done|]. split; [congruence|].
    eexists. split; [by rewrite Hd2, Hd, <- app_assoc|].
    intros k' l'. rewrite !occurrences_app, Hcount.
    rewrite (occurrences_none cmd_obs _ dc) by (done || by intros []).
    rewrite Nat.add_0_r.
    rewrite <- (key_indicator_step m c k l (event_matches ev mouse) k' l' ltac:(lia) Hmk).
    + f_equal. destruct (event_matches ev mouse k); [|done].
      rewrite occurrences_one.
      destruct (decide (OEventListener k l = OEventListener k' l')) as [Heq|Hne].
      * by rewrite !bool_decide_eq_true_2.
      * by rewrite !bool_decide_eq_false_2.
    + intros k0 l0 Hk0 Hc0. apply (Hmin k0 l0 Hk0).
      apply Hok in Hk0 as [Hr _]. lia.
  - exists e', d. split; [done|]. split; [done|].
    intros k l. rewrite Hcount. f_equal. f_equal.
    destruct (decide (m !! k = Some l)) as [Hk|Hk].
    + rewrite !bool_decide_eq_true_2; [done | done |]. split; [|done].
      destruct (decide (k <= c')) as [|Hgt]; [done|]. exfalso.
      rewrite Hm' in Hend. apply (next_entry_None _ _ _ _ Hend Hk).
      apply Hok in Hk as [Hr _]. lia.
    + rewrite !bool_decide_eq_false_2; [done | done | tauto].
Qed.

(** X3.  Mouse events and key presses share the one map of event
    listeners.  On a key press, the listener registered under the key code
    is called once and no other listener is called; on a mouse event
    (motion, button down, button up, wheel) the listener registered under
    the number of the event type is called once and no other is.  So a
    listener registered under 1024 to 1027 is called both for the mouse
    event of that type and for a key with that code. *)
Theorem route_event_calls_matching_listener X ev e :
  listeners_ok (event_listeners e) ->
  event_listeners_untouched X ->
  is_mouse_event (ev_type ev) = true \/ ev_type ev = SDL_KEYDOWN ->
  exists e' d,
    route_event X ev e = Ok e' /\ log e' = log e ++ d /\
    forall key l,
      occurrences (OEventListener key l) d =
      if bool_decide (event_listeners e !! key = Some l /\
                      key = if is_mouse_event (ev_type ev) then ev_type ev else ev_sym ev)
      then 1%nat else 0%nat.
Proof.
  intros Hok Hq Hty.
  destruct (HandleEvent_calls X ev (is_mouse_event (ev_type ev)) e Hok Hq)
    as (e' & d & Hrun & Hd & Hcount).
  exists e', d. split; [|split; [done|]].
  - unfold route_event. destruct (is_mouse_event (ev_type ev)) eqn:Em; [done|].
    destruct Hty as [|Hty]; [done|]. by rewrite bool_decide_eq_true_2.
  - intros key l. rewrite Hcount. unfold event_matches.
    destruct (decide (event_listeners e !! key = Some l)) as [Hk|Hk].
    + rewrite (bool_decide_eq_true_2 _ Hk). simpl.
      destruct (is_mouse_event (ev_type ev)) eqn:Em.
      * assert (Hu : to_Uint32 key = ev_type ev <-> key = ev_type ev).
        { unfold is_mouse_event in Em. apply Hok in Hk as [Hr _].
          unfold to_Uint32, INT_MIN, INT_MAX in *.
          assert (Ht : 1024 <= ev_type ev <= 1027).
          { repeat (apply orb_true_iff in Em as [Em|Em]);
              apply bool_decide_eq_true in Em; rewrite Em; done. }
          split; [|intros ->; apply Z.mod_small; lia].
          intros Hm. destruct (decide (0 <= key)) as [Hp|Hn].
          - rewrite Z.mod_small in Hm by lia. done.
          - exfalso. assert (key mod 2 ^ 32 = key + 2 ^ 32); [|lia].
            symmetry. apply (Z.mod_unique _ _ (-1)); lia. }
        destruct (decide (key = ev_type ev)) as [He|He].
        -- rewrite !bool_decide_eq_true_2; [done | done | tauto].
        -- rewrite !bool_decide_eq_false_2; [done | tauto | tauto].
      * destruct (decide (key = ev_sym ev)) as [He|He].
        -- by rewrite !bool_decide_eq_true_2.
        -- rewrite !bool_decide_eq_false_2; [done | tauto | done].
    + rewrite (bool_decide_eq_false_2 _ Hk). simpl.
      rewrite bool_decide_eq_false_2; [done | tauto].
Qed.

Lemma demo_app_event_listeners_untouched : event_listeners_untouched demo_app.
Proof.
  intros l e. simpl. destruct (decide (l = 5%nat)); simpl; eexists; split; reflexivity.
Qed.

Lemma demo_listeners_ok : listeners_ok (event_listeners demo_engine).
Proof.
  unfold listeners_ok. simpl. apply map_Forall_insert_2; [|apply map_Forall_empty].
  split; [unfold INT_MIN, INT_MAX, SDLK_ESCAPE; lia | discriminate].
Qed.

Lemma route_event_calls_matching_listener_witness :
  exists e' d,
    route_event demo_app escape_pressed demo_engine = Ok e' /\
    log e' = log demo_engine ++ d /\
    occurrences (OEventListener SDLK_ESCAPE 5%nat) d = 1%nat.
Proof.
  destruct (route_event_calls_matching_listener demo_app escape_pressed demo_engine)
    as (e' & d & A & B & C);
    [exact demo_listeners_ok | exact demo_app_event_listeners_untouched
    | right; reflexivity |].
  exists e', d. split; [exact A|]. split; [exact B|]. exact (C SDLK_ESCAPE 5%nat).
Defined.

(** *** [Level::RemoveSprite] and [Level::AddSprite] *)

Lemma erase_loop_absent s v : s ∉ v -> erase_loop s v = v.
Proof.
  induction v as [|x v IH]; intros Hs; simpl; [done|].
  destruct (decide (s = x)) as [->|Hne]; [exfalso; apply Hs; by left|].
  f_equal. apply IH. intros Hin. apply Hs. by right.
Qed.

Lemma filter_absent (s : Sprite) (v : list Sprite) :
  s ∉ v -> filter (fun x => x ≠ s) v = v.
Proof.
  induction v as [|x v IH]; intros Hs; [done|].
  rewrite filter_cons_True by (intros ->; apply Hs; by left).
  f_equal. apply IH. intros Hin. apply Hs. by right.
Qed.

Lemma erase_loop_head s v : s ∉ v -> erase_loop s (s :: v) = v.
Proof.
  intros Hs. simpl. rewrite decide_True by done.
  destruct v as [|y v]; [done|]. f_equal. apply erase_loop_absent.
  intros Hin. apply Hs. by right.
Qed.

Lemma erase_loop_NoDup s v : NoDup v -> erase_loop s v = filter (fun x => x ≠ s) v.
Proof.
  induction 1 as [|x v Hx Hv IH]; [done|].
  destruct (decide (s = x)) as [<-|Hne].
  - rewrite erase_loop_head by done.
    rewrite filter_cons_False by (intros Hn; by apply Hn). by rewrite filter_absent.
  - simpl. rewrite decide_False by done.
    rewrite filter_cons_True by congruence. by rewrite IH.
Qed.

Lemma erase_loop_others s v :
  filter (fun x => x ≠ s) (erase_loop s v) = filter (fun x => x ≠ s) v.
Proof.
  remember (length v) as n eqn:Hn. revert v Hn.
  induction n as [n IH] using lt_wf_ind. intros v Hn.
  destruct v as [|x v]; [done|]. simpl.
  destruct (decide (s = x)) as [<-|Hne].
  - rewrite (filter_cons_False _ s) by (intros Hx; by apply Hx).
    destruct v as [|y v]; [done|].
    destruct (decide (y = s)) as [->|Hy].
    + rewrite !(filter_cons_False _ s) by (intros Hx; by apply Hx).
      apply (IH (length v)); [simpl in Hn; lia | done].
    + rewrite !(filter_cons_True _ y) by done. f_equal.
      apply (IH (length v)); [simpl in Hn; lia | done].
  - rewrite !(filter_cons_True _ x) by congruence. f_equal.
    apply (IH (length v)); [simpl in Hn; lia | done].
Qed.

Lemma erase_loop_adjacent s pre post :
  s ∉ pre -> erase_loop s (pre ++ s :: s :: post) = pre ++ s :: erase_loop s post.
Proof.
  induction pre as [|x pre IH]; intros Hs; simpl.
  - by rewrite decide_True.
  - rewrite decide_False by (intros ->; apply Hs; by left).
    f_equal. apply IH. intros Hin. apply Hs. by right.
Qed.

(** X4.  In a level that holds each sprite once, [RemoveSprite] of a live
    sprite deletes the object and takes exactly that sprite out of the
    vector, the others keeping their order; the other sprites and the other
    levels are as before, nothing is logged, and a second [RemoveSprite] of
    the same sprite is a double [delete]. *)
Theorem RemoveSprite_removes_the_sprite p s L e :
  level_heap e !! p = Some L ->
  NoDup (sprites L) ->
  is_Some (sprite_heap e !! s) ->
  exists e' L',
    Level_RemoveSprite p s e = Ok e' /\
    level_heap e' !! p = Some L' /\
    sprites L' = filter (fun x => x ≠ s) (sprites L) /\
    (s ∉ sprites L') /\
    sprite_heap e' !! s = None /\
    (forall x, x <> s -> sprite_heap e' !! x = sprite_heap e !! x) /\
    (forall q, q <> p -> level_heap e' !! q = level_heap e !! q) /\
    log e' = log e /\
    Level_RemoveSprite p s e' = UB DoubleFree.
Proof.
  intros HL Hnd [r Hs]. unfold Level_RemoveSprite. rewrite HL, Hs.
  eexists _, _. split; [reflexivity|]. simpl. rewrite lookup_insert_eq.
  split; [reflexivity|]. simpl. rewrite erase_loop_NoDup by done.
  split; [done|]. split.
  { intros Hin. apply list_elem_of_filter in Hin as [Hne _]. by apply Hne. }
  split; [apply lookup_delete_eq|].
  split; [intros x Hx; by rewrite lookup_delete_ne|].
  split; [intros q Hq; by rewrite lookup_insert_ne|].
  split; [done|]. by rewrite lookup_delete_eq.
Qed.

Lemma RemoveSprite_removes_the_sprite_witness :
  exists e' L',
    Level_RemoveSprite 1%nat 11%nat demo_engine = Ok e' /\
    level_heap e' !! 1%nat = Some L' /\ sprites L' = [10%nat; 12%nat].
Proof.
  destruct (RemoveSprite_removes_the_sprite 1%nat 11%nat
              (mkLevel [10%nat; 11%nat; 12%nat] true true 0) demo_engine)
    as (e' & L' & A & B & C & _);
    [reflexivity | apply (bool_decide_unpack _); vm_compute; exact I
    | apply (bool_decide_unpack _); vm_compute; exact I |].
  exists e', L'. split; [exact A|]. split; [exact B | exact C].
Defined.

Lemma delete_sprites_dangling v h s :
  s ∈ v -> h !! s = None -> delete_sprites v h = UB DoubleFree.
Proof.
  revert h. induction v as [|x v IH]; intros h Hin Hs; [by apply elem_of_nil in Hin|].
  simpl. destruct (h !! x) eqn:Hx; [|done].
  apply elem_of_cons in Hin as [->|Hin]; [congruence|].
  apply IH; [done|]. rewrite lookup_delete_ne; [done|]. intros ->. congruence.
Qed.

(** X5.  [RemoveSprite] steps over the element that follows an erased one.
    When the sprite stands twice in a row in the vector (which [AddSprite]
    allows), only the first is erased: the level keeps a pointer to the
    deleted object, and the destructor of the level deletes it again. *)
Theorem RemoveSprite_leaves_adjacent_duplicate p s L pre post e :
  level_heap e !! p = Some L ->
  sprites L = pre ++ s :: s :: post ->
  s ∉ pre ->
  is_Some (sprite_heap e !! s) ->
  exists e' L',
    Level_RemoveSprite p s e = Ok e' /\
    level_heap e' !! p = Some L' /\
    sprites L' = pre ++ s :: erase_loop s post /\
    (s ∈ sprites L') /\
    sprite_heap e' !! s = None /\
    Level_delete p e' = UB DoubleFree.
Proof.
  intros HL Hv Hpre [r Hs]. unfold Level_RemoveSprite. rewrite HL, Hs.
  eexists _, _. split; [reflexivity|]. simpl. rewrite lookup_insert_eq.
  split; [reflexivity|]. simpl. rewrite Hv, erase_loop_adjacent by done.
  split; [done|]. split; [set_solver|]. split; [apply lookup_delete_eq|].
  unfold Level_delete. simpl. rewrite lookup_insert_eq. simpl.
  rewrite (delete_sprites_dangling _ _ s); [done | set_solver | apply lookup_delete_eq].
Qed.

Lemma RemoveSprite_leaves_adjacent_duplicate_witness :
  exists e1 e2 e3 L',
    Level_AddSprite 1%nat 13%nat adder_engine = Ok e1 /\
    Level_AddSprite 1%nat 13%nat e1 = Ok e2 /\
    Level_RemoveSprite 1%nat 13%nat e2 = Ok e3 /\
    level_heap e3 !! 1%nat = Some L' /\ (13%nat ∈ sprites L') /\
    sprite_heap e3 !! 13%nat = None.
Proof.
  eexists _, _. edestruct (RemoveSprite_leaves_adjacent_duplicate 1%nat 13%nat
              (mkLevel [10%nat; 11%nat; 12%nat; 13%nat; 13%nat] true true 2)
              [10%nat; 11%nat; 12%nat] [])
    as (e3 & L' & A & B & _ & C & D & _);
    [| reflexivity | apply (bool_decide_unpack _); vm_compute; exact I | |
     exists e3, L'; split; [vm_compute; reflexivity|]; split; [vm_compute; reflexivity|];
     split; [exact A|]; split; [exact B|]; split; [exact C | exact D]];
    [vm_compute; reflexivity | apply (bool_decide_unpack _); vm_compute; exact I].
Defined.

(** X6.  Whatever the vector holds, [RemoveSprite] takes out no other
    sprite than the one it is given and keeps the order of the others; it
    leaves [is_loaded] and [window] alone. *)
Theorem RemoveSprite_keeps_the_others p s L e e' :
  level_heap e !! p = Some L ->
  Level_RemoveSprite p s e = Ok e' ->
  exists L',
    level_heap e' !! p = Some L' /\
    filter (fun x => x ≠ s) (sprites L') = filter (fun x => x ≠ s) (sprites L) /\
    is_loaded L' = is_loaded L /\ has_window L' = has_window L.
Proof.
  intros HL. unfold Level_RemoveSprite. rewrite HL.
  destruct (sprite_heap e !! s); [|done]. intros [= <-].
  eexists. simpl. rewrite lookup_insert_eq. split; [reflexivity|]. simpl.
  by rewrite erase_loop_others.
Qed.

Lemma RemoveSprite_keeps_the_others_witness :
  exists e' L',
    Level_RemoveSprite 1%nat 10%nat demo_engine = Ok e' /\
    level_heap e' !! 1%nat = Some L' /\
    filter (fun x => x ≠ 10%nat) (sprites L') = [11%nat; 12%nat].
Proof.
  eexists. edestruct (RemoveSprite_keeps_the_others 1%nat 10%nat
              (mkLevel [10%nat; 11%nat; 12%nat] true true 0) demo_engine)
    as (L' & A & B & _);
    [reflexivity | vm_compute; reflexivity
    | exists L'; split; [reflexivity|]; split; [exact A | exact B]].
Defined.

(** X7.  [AddSprite] of a sprite that is not in the level, then
    [RemoveSprite] of it: the vector is as it was before the two calls (it
    was changed twice, so no traversal of it may go on), and the sprite is
    deleted.  [AddSprite] hands the sprite to the window exactly when the
    level is loaded. *)
Theorem AddSprite_then_RemoveSprite p s L e :
  level_heap e !! p = Some L ->
  s ∉ sprites L ->
  is_Some (sprite_heap e !! s) ->
  (is_loaded L = true -> has_window L = true) ->
  exists e1 e2 L1 L2,
    Level_AddSprite p s e = Ok e1 /\
    level_heap e1 !! p = Some L1 /\ sprites L1 = sprites L ++ [s] /\
    log e1 = log e ++ (if is_loaded L then [OLoadSprite s] else []) /\
    Level_RemoveSprite p s e1 = Ok e2 /\
    level_heap e2 !! p = Some L2 /\ sprites L2 = sprites L /\
    sprites_version L2 = S (S (sprites_version L)) /\
    sprite_heap e2 !! s = None.
Proof.
  intros HL Hs [r Hr] Hw.
  assert (Herase : erase_loop s (sprites L ++ [s]) = sprites L).
  { clear -Hs. induction (sprites L) as [|x v IH]; simpl.
    - by rewrite decide_True.
    - rewrite decide_False by (intros ->; apply Hs; by left).
      f_equal. apply IH. intros Hin. apply Hs. by right. }
  assert (Hne : sprites L <> sprites L ++ [s]).
  { intros Heq. apply (f_equal length) in Heq. rewrite length_app in Heq. simpl in Heq. lia. }
  unfold Level_AddSprite. rewrite HL.
  destruct (is_loaded L) eqn:El.
  - rewrite (Hw eq_refl). eexists _, _, _, _. split; [reflexivity|].
    simpl. rewrite lookup_insert_eq. split; [reflexivity|]. split; [done|]. split; [done|].
    unfold Level_RemoveSprite. simpl. rewrite lookup_insert_eq, Hr. simpl.
    split; [reflexivity|]. simpl. rewrite lookup_insert_eq. split; [reflexivity|]. simpl.
    rewrite Herase. split; [done|].
    rewrite decide_False by done. split; [done|]. apply lookup_delete_eq.
  - eexists _, _, _, _. split; [reflexivity|].
    simpl. rewrite lookup_insert_eq. split; [reflexivity|]. split; [done|].
    split; [by rewrite app_nil_r|].
    unfold Level_RemoveSprite. simpl. rewrite lookup_insert_eq, Hr. simpl.
    split; [reflexivity|]. simpl. rewrite lookup_insert_eq. split; [reflexivity|]. simpl.
    rewrite Herase. split; [done|].
    rewrite decide_False by done. split; [done|]. apply lookup_delete_eq.
Qed.

Lemma AddSprite_then_RemoveSprite_witness :
  exists e1 e2 L2,
    Level_AddSprite 1%nat 13%nat adder_engine = Ok e1 /\
    Level_RemoveSprite 1%nat 13%nat e1 = Ok e2 /\
    level_heap e2 !! 1%nat = Some L2 /\ sprites L2 = [10%nat; 11%nat; 12%nat].
Proof.
  destruct (AddSprite_then_RemoveSprite 1%nat 13%nat
              (mkLevel [10%nat; 11%nat; 12%nat] true true 0) adder_engine)
    as (e1 & e2 & L1 & L2 & A & _ & _ & _ & B & C & D & _);
    [reflexivity
    | apply (bool_decide_unpack _); vm_compute; exact I
    | apply (bool_decide_unpack _); vm_compute; exact I
    | reflexivity |].
  exists e1, e2, L2. split; [exact A|]. split; [exact B|]. split; [exact C | exact D].
Defined.

(** *** The destructor of a level *)

Lemma delete_sprites_NoDup v h :
  NoDup v -> (forall s, s ∈ v -> is_Some (h !! s)) ->
  exists h', delete_sprites v h = Ok h' /\
    forall x, h' !! x = if bool_decide (x ∈ v) then None else h !! x.
Proof.
  intros Hv. revert h. induction Hv as [|s v Hs Hv IH]; intros h Halive.
  - exists h. split; [done|]. intros x. rewrite bool_decide_eq_false_2; [done|].
    apply not_elem_of_nil.
  - simpl. destruct (Halive s) as [r ->]; [by left|].
    destruct (IH (delete s h)) as (h' & Hrun & Hh').
    { intros x Hx. rewrite lookup_delete_ne by (intros ->; done). apply Halive. by right. }
    exists h'. split; [done|]. intros x. rewrite Hh'.
    destruct (decide (x = s)) as [->|Hne].
    + rewrite (bool_decide_eq_false_2 (s ∈ v)) by done.
      rewrite bool_decide_eq_true_2 by (by left). apply lookup_delete_eq.
    + rewrite lookup_delete_ne by done.
      destruct (decide (x ∈ v)) as [Hin|Hin].
      * rewrite !bool_decide_eq_true_2; [done | by right | done].
      * rewrite !bool_decide_eq_false_2; [done | | done].
        intros Hx. apply elem_of_cons in Hx as [?|?]; done.
Qed.

Lemma delete_sprites_duplicate v h : ~ NoDup v -> delete_sprites v h = UB DoubleFree.
Proof.
  revert h. induction v as [|s v IH]; intros h Hnd; [exfalso; apply Hnd; constructor|].
  simpl. destruct (h !! s) eqn:Hs; [|done].
  destruct (decide (s ∈ v)) as [Hin|Hin].
  - apply (delete_sprites_dangling _ _ s); [done | apply lookup_delete_eq].
  - apply IH. intros Hv. apply Hnd. by constructor.
Qed.

(** X8.  The destructor of a level deletes every sprite of the vector.  For
    live sprites it succeeds exactly when no sprite stands twice in the
    vector: then the sprites of the level are gone, the level is gone, and
    every other sprite is as before; with a sprite that stands twice it is
    a double [delete]. *)
Theorem Level_delete_frees_each_sprite_once p L e :
  level_heap e !! p = Some L ->
  (forall s, s ∈ sprites L -> is_Some (sprite_heap e !! s)) ->
  (NoDup (sprites L) ->
     exists e', Level_delete p e = Ok e' /\
       level_heap e' !! p = None /\
       forall x, sprite_heap e' !! x =
                 if bool_decide (x ∈ sprites L) then None else sprite_heap e !! x) /\
  (~ NoDup (sprites L) -> Level_delete p e = UB DoubleFree).
Proof.
  intros HL Halive. unfold Level_delete. rewrite HL. split.
  - intros Hnd. destruct (delete_sprites_NoDup _ _ Hnd Halive) as (h' & Hrun & Hh').
    rewrite Hrun. simpl. eexists. split; [reflexivity|]. simpl.
    split; [apply lookup_delete_eq | done].
  - intros Hnd. by rewrite delete_sprites_duplicate.
Qed.

Lemma Level_delete_frees_each_sprite_once_witness :
  exists e', Level_delete 1%nat demo_engine = Ok e' /\ sprite_heap e' !! 11%nat = None.
Proof.
  destruct (Level_delete_frees_each_sprite_once 1%nat
              (mkLevel [10%nat; 11%nat; 12%nat] true true 0) demo_engine) as [A _];
    [reflexivity
    | intros s Hs; apply (bool_decide_unpack _); revert s Hs;
      apply (Forall_forall (fun s => bool_decide (is_Some (sprite_heap demo_engine !! s))));
      repeat constructor |].
  destruct A as (e' & B & _ & C); [apply (bool_decide_unpack _); vm_compute; exact I|].
  exists e'. split; [exact B|]. exact (C 11%nat).
Defined.

(** *** A traversal of the sprites returns only if the vector was kept *)

Lemma sequence_kept_refl p e : sequence_kept p e e.
Proof. intros L HL. exists L. split; [done|]. split; [lia | done]. Qed.

Lemma sequence_kept_trans p e1 e2 e3 :
  sequence_kept p e1 e2 -> sequence_kept p e2 e3 -> sequence_kept p e1 e3.
Proof.
  intros H12 H23 L HL. destruct (H12 L HL) as (L2 & HL2 & Hv2 & Hs2).
  destruct (H23 L2 HL2) as (L3 & HL3 & Hv3 & Hs3).
  exists L3. split; [done|]. split; [lia|]. intros Heq.
  rewrite Hs3 by lia. apply Hs2. lia.
Qed.

Lemma sequence_kept_heap p e e' : level_heap e' = level_heap e -> sequence_kept p e e'.
Proof. intros Hh L HL. exists L. rewrite Hh. split; [done|]. split; [lia | done]. Qed.

Lemma sequence_kept_insert p q Lq Lq' e e' :
  level_heap e !! q = Some Lq ->
  level_heap e' = <[q := Lq']> (level_heap e) ->
  (sprites_version Lq <= sprites_version Lq')%nat ->
  (sprites_version Lq' = sprites_version Lq -> sprites Lq' = sprites Lq) ->
  sequence_kept p e e'.
Proof.
  intros Hq Hh Hv Hs L HL. rewrite Hh. destruct (decide (q = p)) as [->|Hne].
  - exists Lq'. rewrite lookup_insert_eq. split; [done|].
    assert (L = Lq) as -> by congruence. done.
  - exists L. rewrite lookup_insert_ne by done. split; [done|]. split; [lia | done].
Qed.

Lemma exec_cmd_sequence_kept p c e e' : exec_cmd c e = Ok e' -> sequence_kept p e e'.
Proof.
  destruct c; simpl; intros H; try (injection H as <-; by apply sequence_kept_heap).
  - unfold Level_AddSprite in H. destruct (level_heap e !! p0) as [L|] eqn:HL; [|done].
    assert (G : forall e1, level_heap e1 =
                  <[p0 := mkLevel (sprites L ++ [s]) (is_loaded L) (has_window L)
                                  (S (sprites_version L))]> (level_heap e) ->
                sequence_kept p e e1).
    { intros e1 He1. eapply sequence_kept_insert; [done | done | simpl; lia | simpl; lia]. }
    destruct (is_loaded L); [destruct (has_window L); [|done]|]; injection H as <-; by apply G.
  - unfold Level_RemoveSprite in H. destruct (level_heap e !! p0) as [L|] eqn:HL; [|done].
    destruct (sprite_heap e !! s); [|done]. injection H as <-.
    eapply sequence_kept_insert; [done | done | |]; simpl.
    + destruct (decide (erase_loop s (sprites L) = sprites L)); lia.
    + destruct (decide (erase_loop s (sprites L) = sprites L)); [done | lia].
  - unfold Level_SetLoaded in H. destruct (level_heap e !! p0) as [L|] eqn:HL; [|done].
    injection H as <-. eapply sequence_kept_insert; [done | done | simpl; lia | done].
  - unfold Level_SetWindow in H. destruct (level_heap e !! p0) as [L|] eqn:HL; [|done].
    injection H as <-. eapply sequence_kept_insert; [done | done | simpl; lia | done].
  - unfold Sprite_SetX in H. destruct (sprite_heap e !! s); [|done].
    injection H as <-. by apply sequence_kept_heap.
  - unfold Sprite_SetY in H. destruct (sprite_heap e !! s); [|done].
    injection H as <-. by apply sequence_kept_heap.
Qed.

Lemma run_cmds_sequence_kept p cs e e' : run_cmds cs e = Ok e' -> sequence_kept p e e'.
Proof.
  revert e. induction cs as [|c cs IH]; intros e H; simpl in H.
  - injection H as <-. apply sequence_kept_refl.
  - apply bind_Ok in H as (e1 & Hc & H).
    eapply sequence_kept_trans; [by eapply exec_cmd_sequence_kept | by apply IH].
Qed.

(** X9.  [PropagateEventToSprites] walks the vector of the level itself.
    Whenever it returns, the vector is the one it began with: a listener of
    a sprite that adds a sprite to this level, or removes one of its sprites,
    leaves the rest of the traversal undefined, whichever sprite it is. *)
Theorem PropagateEventToSprites_returns_with_the_vector_kept X p ev L e e' :
  level_heap e !! p = Some L ->
  Level_PropagateEventToSprites X p ev e = Ok e' ->
  exists L', level_heap e' !! p = Some L' /\ sprites L' = sprites L /\
             sprites_version L' = sprites_version L.
Proof.
  intros HL. unfold Level_PropagateEventToSprites. rewrite HL.
  apply (range_for_partial
    (fun _ e1 => exists L1, level_heap e1 !! p = Some L1 /\ sprites L1 = sprites L /\
                            sprites_version L1 = sprites_version L)).
  - by exists L.
  - intros pre s post e0 e1 _ (L0 & HL0 & Hs0 & Hv0) Hbody Hvalid.
    assert (Hkept : sequence_kept p e0 e1).
    { unfold Sprite_DelegateEvent in Hbody. destruct (sprite_heap e0 !! s); [|done].
      apply (run_cmds_sequence_kept p) in Hbody.
      eapply sequence_kept_trans; [|exact Hbody]. by apply sequence_kept_heap. }
    destruct (Hkept L0 HL0) as (L1 & HL1 & _ & Hs1).
    unfold sprites_intact in Hvalid. rewrite HL1 in Hvalid.
    apply bool_decide_eq_true in Hvalid.
    exists L1. split; [done|]. split; [|done]. rewrite Hs1; [done | congruence].
Qed.

Lemma PropagateEventToSprites_returns_with_the_vector_kept_witness :
  exists e' L', Level_PropagateEventToSprites demo_app 1%nat escape_pressed demo_engine = Ok e' /\
                level_heap e' !! 1%nat = Some L' /\ sprites L' = [10%nat; 11%nat; 12%nat].
Proof.
  eexists. edestruct (PropagateEventToSprites_returns_with_the_vector_kept demo_app 1%nat
              escape_pressed (mkLevel [10%nat; 11%nat; 12%nat] true true 0) demo_engine)
    as (L' & A & B & _);
    [reflexivity | vm_compute; reflexivity
    | exists L'; split; [reflexivity|]; split; [exact A | exact B]].
Defined.

(** *** The time event, from [EmitTimeEvent] to the time listeners *)

Lemma PropagateEventToSprites_sprite_obs X p ev e e' :
  Level_PropagateEventToSprites X p ev e = Ok e' -> evolves sprite_obs e e'.
Proof.
  unfold Level_PropagateEventToSprites. destruct (level_heap e !! p); [|done].
  apply range_for_evolves. intros s e0 e1.
  unfold Sprite_DelegateEvent. destruct (sprite_heap e0 !! s); [|done]. intros H.
  eapply evolves_trans; [by apply (evolves_record _ (OSpriteEvent s ev))|].
  eapply evolves_mono; [|by eapply run_cmds_evolves]. by intros [].
Qed.

(** X10.  The time event that [EmitTimeEvent] pushed in one turn is polled
    in the next, before the frame counter is incremented again.  It carries
    pointers, so the listeners are judged on the values that [fps] and
    [frame_counter] have when the event is handled: a time listener is
    called, once, iff its delay fires for the frame counter as the emitting
    turn left it. *)
Theorem polled_time_event_calls_time_listeners X e e' d :
  sdl_queue e = [time_event e] ->
  SDL_USEREVENT <= time_event_type e ->
  timers_ok (fps e) (time_listeners e) ->
  timers_untouched X ->
  PollEvent X e = Ok e' ->
  log e' = log e ++ d ->
  forall delay l,
    occurrences (OTimeListener delay l) d =
    if bool_decide (time_listeners e !! delay = Some l)
       && fires (fps e) (to_int (frame_counter e)) delay
    then 1%nat else 0%nat.
Proof.
  intros Hq Hty Hok Hunt Hpoll Hd delay l.
  unfold PollEvent in Hpoll. rewrite Hq in Hpoll. simpl in Hpoll. rewrite Hq in Hpoll.
  apply bind_Ok in Hpoll as (e1 & Hdel & [= <-]).
  unfold DelegateEvent in Hdel. apply bind_Ok in Hdel as (e0 & Hroute & Hdel).
  apply bind_Ok in Hdel as (p & _ & Hprop).
  unfold route_event in Hroute. simpl in Hroute.
  assert (Hm : is_mouse_event (time_event_type e) = false).
  { unfold is_mouse_event. unfold SDL_USEREVENT in Hty.
    rewrite !bool_decide_eq_false_2; [done | | | |];
      unfold SDL_MOUSEWHEEL, SDL_MOUSEBUTTONUP, SDL_MOUSEBUTTONDOWN, SDL_MOUSEMOTION; lia. }
  rewrite Hm in Hroute.
  rewrite (bool_decide_eq_false_2 (time_event_type e = SDL_KEYDOWN)) in Hroute
    by (unfold SDL_KEYDOWN, SDL_USEREVENT in *; lia).
  rewrite bool_decide_eq_true_2 in Hroute by done.
  destruct (HandleTime_calls X (time_event e) (set_sdl_queue [] e)
              (fps e) (to_int (frame_counter e))) as (e0' & d0 & Hrun & Hd0 & _ & Hcount);
    [done | done | done | done |].
  rewrite Hroute in Hrun. injection Hrun as <-.
  apply PropagateEventToSprites_sprite_obs in Hprop.
  destruct (evo_log _ _ _ Hprop) as (d1 & Hd1 & HP1 & _).
  simpl in Hd0. rewrite Hd1, Hd0, <- app_assoc in Hd. apply app_inv_head in Hd. subst d.
  rewrite occurrences_app, (occurrences_none sprite_obs _ d1) by (done || by intros []).
  rewrite Nat.add_0_r. apply Hcount.
Qed.

Lemma polled_time_event_calls_time_listeners_witness :
  occurrences (OTimeListener 500 8%nat) (log after_poll) = 1%nat /\
  occurrences (OTimeListener 1000 6%nat) (log after_poll) = 1%nat.
Proof.
  pose proof (polled_time_event_calls_time_listeners demo_app polling_engine after_poll
                (log after_poll) eq_refl ltac:(by vm_compute) demo_timers_ok
                demo_app_timers_untouched ltac:(vm_compute; reflexivity) eq_refl) as H.
  split; [exact (H 500 8%nat) | exact (H 1000 6%nat)].
Defined.
